(** * libhelper: the Mach-O parser

    A shallow embedding of the Mach-O part of libhelper:

    - [src/macho/macho.c]: the function [macho_read_magic];
    - [include/libhelper-macho/macho-header.h]: the magic numbers, the CPU
      types, the file types, [mach_header_type_t], [mach_header_64];
    - [include/macho/macho-command.h]: [mach_load_command_t],
      [mach_command_info_t], the platform and tool numbers, [dylib_vers_t],
      [mach_source_version_command_t].

    The two headers only declare the parsing functions
    ([mach_header_verify], [mach_header_load], [mach_command_info_load],
    [mach_lc_load_dylib_format_version], [mach_lc_source_version_string]);
    their bodies are not among the sources.  Those functions are modelled
    from the specification, and every such definition says so.

    C integers are modelled as [Z]; a [uint32_t] ranges over [0, 2^32). *)

From Stdlib Require Import ZArith Lia.
From Stdlib.Strings Require Import Byte.
From stdpp Require Import base numbers option list strings gmap pretty.

Open Scope Z_scope.

(* ================================================================== *)
(** * Part I: the constants of the two headers                         *)
(* ================================================================== *)

(** ** macho-header.h: capability bits of the CPU type *)

Definition CPU_ARCH_MASK     : Z := 0xff000000.
Definition CPU_ARCH_ABI64    : Z := 0x01000000.
Definition CPU_ARCH_ABI64_32 : Z := 0x02000000.

(** ** macho-header.h: file types *)

Definition MACH_TYPE_UNKNOWN     : Z := 0x0.
Definition MACH_TYPE_OBJECT      : Z := 0x1.
Definition MACH_TYPE_EXECUTE     : Z := 0x2.
Definition MACH_TYPE_DYLIB       : Z := 0x6.
Definition MACH_TYPE_KEXT_BUNDLE : Z := 0xb.

(** ** macho-header.h: magic numbers *)

Definition MACH_MAGIC_64        : Z := 0xfeedfacf.
Definition MACH_CIGAM_64        : Z := 0xcffaedfe.
Definition MACH_MAGIC_32        : Z := 0xfeedface.
Definition MACH_CIGAM_32        : Z := 0xcefaedfe.
Definition MACH_MAGIC_UNIVERSAL : Z := 0xcafebabe.
Definition MACH_CIGAM_UNIVERSAL : Z := 0xbebafeca.

(** ** macho-header.h: [enum cpu_type_t] and [enum cpu_subtype_t]

    The enumerators are kept as the integers the header fields hold: a
    file may carry any 32-bit value in [cputype]. *)

Definition CPU_TYPE_ANY      : Z := 100.
Definition CPU_TYPE_X86      : Z := 6.
Definition CPU_TYPE_X86_64   : Z := 0x01000007.
Definition CPU_TYPE_ARM      : Z := 12.
Definition CPU_TYPE_ARM64    : Z := Z.lor CPU_TYPE_ARM CPU_ARCH_ABI64.
Definition CPU_TYPE_ARM64_32 : Z := Z.lor CPU_TYPE_ARM CPU_ARCH_ABI64_32.

Definition CPU_SUBTYPE_ANY       : Z := 100.
Definition CPU_SUBTYPE_ARM64_ALL : Z := 0.
Definition CPU_SUBTYPE_ARM64_V8  : Z := 1.
Definition CPU_SUBTYPE_ARM64E    : Z := 2.

(** ** macho-header.h: [enum mach_header_type_t]

    [MH_TYPE_MACHO32] and [MH_TYPE_FAT] carry no initialiser and so
    continue from [MH_TYPE_MACHO64 = 1]. *)

Inductive mach_header_type_t : Set :=
| MH_TYPE_UNKNOWN
| MH_TYPE_MACHO64
| MH_TYPE_MACHO32
| MH_TYPE_FAT.

Definition mach_header_type_value (t : mach_header_type_t) : Z :=
  match t with
  | MH_TYPE_UNKNOWN => -1
  | MH_TYPE_MACHO64 => 1
  | MH_TYPE_MACHO32 => 2
  | MH_TYPE_FAT => 3
  end.

(** ** macho-command.h: print flags, platforms and build tools *)

Definition LC_RAW  : Z := 0x0.
Definition LC_INFO : Z := 0x1.

Definition PLATFORM_MACOS            : Z := 1.
Definition PLATFORM_IOS              : Z := 2.
Definition PLATFORM_TVOS             : Z := 3.
Definition PLATFORM_WATCHOS          : Z := 4.
Definition PLATFORM_BRIDGEOS         : Z := 5.
Definition PLATFORM_MACCATALYST      : Z := 6.
Definition PLATFORM_IOSSIMULATOR     : Z := 7.
Definition PLATFORM_TVOSSIMULATOR    : Z := 8.
Definition PLATFORM_WATCHOSSIMULATOR : Z := 9.
Definition PLATFORM_DRIVERKIT        : Z := 10.

(** The ten platform numbers in the order the header lists them. *)
Definition platforms : list Z :=
  [ PLATFORM_MACOS; PLATFORM_IOS; PLATFORM_TVOS; PLATFORM_WATCHOS;
    PLATFORM_BRIDGEOS; PLATFORM_MACCATALYST; PLATFORM_IOSSIMULATOR;
    PLATFORM_TVOSSIMULATOR; PLATFORM_WATCHOSSIMULATOR; PLATFORM_DRIVERKIT ].

Definition TOOL_CLANG : Z := 1.
Definition TOOL_SWIFT : Z := 2.
Definition TOOL_LD    : Z := 3.

(* ================================================================== *)
(** * Part II: the structures of the two headers                       *)
(* ================================================================== *)

(** [struct mach_header_64]: eight 32-bit fields, 32 bytes. *)
Record mach_header_64_t : Set := {
  magic      : Z;
  cputype    : Z;
  cpusubtype : Z;
  filetype   : Z;
  ncmds      : Z;
  sizeofcmds : Z;
  flags      : Z;
  reserved   : Z
}.

(** [mach_load_command_t]: the two words every load command starts with. *)
Record mach_load_command_t : Set := {
  cmd     : Z;
  cmdsize : Z
}.

(** [mach_command_info_t]: a load command with its type and its offset
    in the file. *)
Record mach_command_info_t : Set := {
  lc   : mach_load_command_t;
  type : Z;
  off  : Z
}.

(** [mach_source_version_command_t]. *)
Record mach_source_version_command_t : Set := {
  svc_cmd     : Z;
  svc_cmdsize : Z;
  version     : Z
}.

(** [dylib_vers_t]: the three parts [XXXX.YY.ZZ] of a packed version. *)
Record dylib_vers_t : Set := {
  a : Z;
  b : Z;
  c : Z
}.

(* ================================================================== *)
(** * Part III: macho.c                                                *)
(* ================================================================== *)

(** ** The machine the function runs on

    [macho_read_magic] touches three things outside its locals: memory
    (through [memcpy]), the standard output (through [g_print]) and the
    process itself (through [exit]).  A [world] holds the first two: the
    bytes of every address that is mapped for writing, and the lines
    printed so far. *)

Record world : Type := World {
  memory : gmap Z byte;
  stdout : list string
}.

(** What a call comes to: it returns a value to its caller, it ends the
    process with an exit status, or it faults in a store to an address
    that is not mapped. *)
Inductive outcome (A : Type) : Type :=
| Returned (v : A) (w : world)
| Exited (status : Z) (w : world)
| Fault.
Arguments Returned {A} v w.
Arguments Exited {A} status w.
Arguments Fault {A}.

Definition prog (A : Type) : Type := world -> outcome A.

Definition prog_ret {A} (v : A) : prog A := fun w => Returned v w.

Definition prog_bind {A B} (f : A -> prog B) (m : prog A) : prog B :=
  fun w =>
    match m w with
    | Returned v w' => f v w'
    | Exited status w' => Exited status w'
    | Fault => Fault
    end.

#[global] Instance prog_mret : MRet prog := @prog_ret.
#[global] Instance prog_mbind : MBind prog := @prog_bind.

(** [store_bytes m dest bs]: the bytes [bs] written from address [dest]
    on, or [None] when one of the addresses is not mapped. *)
Fixpoint store_bytes (m : gmap Z byte) (dest : Z) (bs : list byte)
  : option (gmap Z byte) :=
  match bs with
  | [] => Some m
  | x :: bs' =>
      match m !! dest with
      | Some _ => store_bytes (<[dest := x]> m) (dest + 1) bs'
      | None => None
      end
  end.

(** [memcpy (dest, src, n)] where [src] is given by the bytes of the
    object it points to: the first [n] of them are stored at [dest]. *)
Definition memcpy (dest : Z) (src : list byte) (n : nat) : prog unit :=
  fun w =>
    match store_bytes (memory w) dest (take n src) with
    | Some m' => Returned tt (World m' (stdout w))
    | None => Fault
    end.

(** [g_print] is GLib's; it is not among the sources.  Of what it does
    only the line it prints is modelled. *)
Definition g_print (s : string) : prog unit :=
  fun w => Returned tt (World (memory w) (stdout w ++ [s])).

Definition exit {A} (status : Z) : prog A :=
  fun w => Exited status w.

(** The byte [n mod 256]. *)
Definition byte_of_Z (n : Z) : byte :=
  default x00 (Byte.of_N (Z.to_N (n mod 256))).

(** The object representation of a pointer: the eight bytes of its
    address, least significant first (the LP64 little-endian targets of
    Mach-O: x86_64 and arm64). *)
Definition pointer_repr (p : Z) : list byte :=
  (fun i : nat => byte_of_Z (Z.shiftr p (8 * Z.of_nat i))) <$> seq 0 8.

Definition sizeof_uint32_t : nat := 4.

Definition newline : string := String (Ascii.ascii_of_nat 10) EmptyString.

Definition magic_error_message : string :=
  "[*] Error: Could not read magic from Mach-O." +:+ newline.

(** ** [macho_read_magic], macho.c lines 24-34

    <<
    uint32_t macho_read_magic (unsigned char *buf, int offset)
    {
        uint32_t magic = 0;
        memcpy (magic, &buf, sizeof(uint32_t));
        if (!magic) {
            g_print ("[*] Error: Could not read magic from Mach-O.\n");
            exit (0);
        }
        return magic;
    }
    >>

    The function is split at the test, so that the value the local
    [magic] holds when it is tested can be named.

    Lines 26-27.  The destination of the copy is the _value_ of [magic]
    converted to a pointer, which is address 0, and its source is [&buf],
    the address of the parameter that holds the pointer (not the buffer
    it points to): what is copied are the first four bytes of the
    pointer itself.  The address of [magic] is never taken, so [magic] is
    a temporary and no store through a pointer reaches it: it keeps the 0
    it was initialised with.  The C standard leaves a store through the
    null pointer undefined; the model shows what an implementation that
    carries the store out does with it: a fault when address 0 is not
    mapped, a plain store when it is.  (A compiler may also turn the copy
    into a trap, and the call then faults whatever is mapped.)  The
    parameter [offset] is not used. *)
Definition macho_read_magic_copy (buf : Z) (offset : Z) : prog Z :=
  let magic := 0 in
  _ ← memcpy magic (pointer_repr buf) sizeof_uint32_t;
  mret magic.

(** Lines 28-33, for the value [magic] the local holds at the test. *)
Definition macho_read_magic_check (magic : Z) : prog Z :=
  if magic =? 0 then
    _ ← g_print magic_error_message;
    exit 0
  else
    mret magic.

Definition macho_read_magic (buf : Z) (offset : Z) : prog Z :=
  magic ← macho_read_magic_copy buf offset;
  macho_read_magic_check magic.

(** What the specification asks of the function instead: the 32-bit
    value of the four bytes at [buf + offset], least significant first. *)
Definition le_value (bs : list byte) : Z :=
  foldr (fun x acc => Z.of_N (Byte.to_N x) + 256 * acc) 0 bs.

Definition load_bytes (m : gmap Z byte) (addr : Z) (n : nat) : option (list byte) :=
  mapM (fun i : nat => m !! (addr + Z.of_nat i)) (seq 0 n).

Definition magic_at (m : gmap Z byte) (buf offset : Z) : option Z :=
  le_value <$> load_bytes m (buf + offset) 4.

(** ** Two concrete machines

    A buffer of four bytes [CF FA ED FE] (the magic of a little-endian
    64-bit Mach-O) at address [0x1000].  In [hosted_world] nothing else is
    mapped, as in a process of a hosted system; in [flat_world] the
    addresses 0 to 3 are mapped as well. *)
Definition sample_buf : Z := 0x1000.

Definition sample_memory : gmap Z byte :=
  <[0x1000 := xcf]> (<[0x1001 := xfa]> (<[0x1002 := xed]> (<[0x1003 := xfe]> ∅))).

Definition hosted_world : world := World sample_memory [].

Definition flat_world : world :=
  World (<[0 := x00]> (<[1 := x00]> (<[2 := x00]> (<[3 := x00]> sample_memory)))) [].

(** The world after [g_print] of the error message. *)
Definition after_error_message (w : world) : world :=
  World (memory w) (stdout w ++ [magic_error_message]).

(** The error branch of lines 28-31, entered from world [w]. *)
Definition error_branch (w : world) : outcome Z :=
  Exited 0 (after_error_message w).

(** A call hands a result to its caller only when it returns. *)
Definition returned_to_caller {A} (o : outcome A) : Prop :=
  exists v w, o = Returned v w.

(* ================================================================== *)
(** * Part IV: the parser the headers declare                          *)
(* ================================================================== *)

(** The error kinds of the specification (section 7). *)
Inductive error : Set :=
| BadMagic
| Truncated
| MalformedLoadCommand
| MalformedString
| UnsupportedFormat
| IoOutOfRange.

Inductive result (A : Type) : Type :=
| Ok (v : A)
| Err (e : error).
Arguments Ok {A} v.
Arguments Err {A} e.

Definition result_bind {A B} (f : A -> result B) (m : result A) : result B :=
  match m with
  | Ok v => f v
  | Err e => Err e
  end.

#[global] Instance result_mret : MRet result := @Ok.
#[global] Instance result_mbind : MBind result := @result_bind.

(** ** Byte source *)

(** Modelled from the spec: the file view and the byte source of section
    4.1 ([file_t] and [file_load_bytes] of libhelper/file.h are not among
    the sources).  A file is a finite sequence of bytes; a read of [len]
    bytes at [offset] that runs past its end fails with [IoOutOfRange].
    (Offsets and lengths are unsigned in the specification; a negative
    one is out of range as well.) *)
Definition file_t : Set := list byte.

Definition file_size (f : file_t) : Z := Z.of_nat (length f).

Definition read_at (f : file_t) (offset len : Z) : result (list byte) :=
  if (0 <=? offset) && (0 <=? len) && (offset + len <=? file_size f)
  then Ok (take (Z.to_nat len) (drop (Z.to_nat offset) f))
  else Err IoOutOfRange.

(** Modelled from the spec: a read the parser makes.  Section 7 names a
    read that extends past the file size [Truncated]; [IoOutOfRange] is
    what the byte source itself reports. *)
Definition read_within (f : file_t) (offset len : Z) : result (list byte) :=
  match read_at f offset len with
  | Ok bs => Ok bs
  | Err _ => Err Truncated
  end.

(** ** Endianness *)

Inductive endian : Set :=
| LittleEndian
| BigEndian.

(** Modelled from the spec: the multi-byte reads of section 4.2, which
    apply the endian decision. *)
Definition decode_uint (e : endian) (bs : list byte) : Z :=
  match e with
  | LittleEndian => le_value bs
  | BigEndian => le_value (reverse bs)
  end.

(** ** Magic dispatch *)

(** Modelled from the spec: the table of section 4.2, on the magic as a
    little-endian host reads it, against the six magic numbers of
    macho-header.h.  (The body of [mach_header_verify] is not among the
    sources.) *)
Definition mach_header_type_of_magic (m : Z) : mach_header_type_t :=
  if (m =? MACH_MAGIC_64) || (m =? MACH_CIGAM_64) then MH_TYPE_MACHO64
  else if (m =? MACH_MAGIC_32) || (m =? MACH_CIGAM_32) then MH_TYPE_MACHO32
  else if (m =? MACH_MAGIC_UNIVERSAL) || (m =? MACH_CIGAM_UNIVERSAL) then MH_TYPE_FAT
  else MH_TYPE_UNKNOWN.

(** Modelled from the spec: the third column of the table of section 4.2.
    A magic read as its [MAGIC] value is laid out as the host is, little
    endian; one read as its [CIGAM] value is laid out the other way. *)
Definition endian_of_magic (m : Z) : endian :=
  if (m =? MACH_CIGAM_64) || (m =? MACH_CIGAM_32) || (m =? MACH_CIGAM_UNIVERSAL)
  then BigEndian
  else LittleEndian.

(** Modelled from the spec: [mach_header_verify] (declared in
    macho-header.h, body not among the sources) inspects the first four
    bytes; anything that is not one of the six magics is unknown, a file
    too short to hold four bytes included. *)
Definition mach_header_verify_at (f : file_t) (base : Z) : mach_header_type_t :=
  match read_at f base 4 with
  | Ok bs => mach_header_type_of_magic (le_value bs)
  | Err _ => MH_TYPE_UNKNOWN
  end.

Definition mach_header_verify (f : file_t) : mach_header_type_t :=
  mach_header_verify_at f 0.

(** The six magics as they lie in a file, in the order of the table of
    section 4.2. *)
Definition recognized_magics : list (list byte) :=
  [ [xcf; xfa; xed; xfe]; [xfe; xed; xfa; xcf];
    [xce; xfa; xed; xfe]; [xfe; xed; xfa; xce];
    [xca; xfe; xba; xbe]; [xbe; xba; xfe; xca] ].

(** ** Header decoder *)

(** [sizeof (struct mach_header_64)]. *)
Definition MACH_HEADER_64_SIZE : Z := 32.

(** The [i]-th 32-bit word of a record read as [bs]. *)
Definition word32 (e : endian) (bs : list byte) (i : nat) : Z :=
  decode_uint e (take 4 (drop (4 * i) bs)).

Definition decode_mach_header_64 (e : endian) (bs : list byte) : mach_header_64_t :=
  {| magic      := word32 e bs 0;
     cputype    := word32 e bs 1;
     cpusubtype := word32 e bs 2;
     filetype   := word32 e bs 3;
     ncmds      := word32 e bs 4;
     sizeofcmds := word32 e bs 5;
     flags      := word32 e bs 6;
     reserved   := word32 e bs 7 |}.

(** Modelled from the spec: the header decoder of section 4.3
    ([mach_header_load] is declared in macho-header.h, its body is not
    among the sources).  Given a file and a base offset it returns the
    decoded header, the endianness the magic decides, and the offset at
    which the load commands begin, [base + 32].  It fails with
    [Truncated] when the file is too short for the magic or for the fixed
    header, with [BadMagic] when the magic is not recognised, and with
    [UnsupportedFormat] for a 32-bit file (section 7) and for a universal
    one, which the note on the magics in macho-header.h says the library
    detects but does not load. *)
Definition mach_header_load (f : file_t) (base : Z)
  : result (mach_header_64_t * endian * Z) :=
  m ← read_within f base 4;
  match mach_header_type_of_magic (le_value m) with
  | MH_TYPE_UNKNOWN => Err BadMagic
  | MH_TYPE_MACHO32 => Err UnsupportedFormat
  | MH_TYPE_FAT => Err UnsupportedFormat
  | MH_TYPE_MACHO64 =>
      bs ← read_within f base MACH_HEADER_64_SIZE;
      let e := endian_of_magic (le_value m) in
      mret (decode_mach_header_64 e bs, e, base + MACH_HEADER_64_SIZE)
  end.

(** ** Load-command walker *)

(** [sizeof (mach_load_command_t)]. *)
Definition MACH_LOAD_COMMAND_SIZE : Z := 8.

(** Modelled from the spec: the command descriptor of section 3,
    [{kind, file_offset, raw}]: the [mach_command_info_t] of
    macho-command.h together with the bytes of the command. *)
Record command_descriptor : Set := {
  info : mach_command_info_t;
  raw  : list byte
}.

Definition descriptor_cmdsize (d : command_descriptor) : Z :=
  cmdsize (lc (info d)).

(** The descriptor of the command [l] found at [cursor], with its bytes. *)
Definition descriptor_at (cursor : Z) (l : mach_load_command_t) (bs : list byte)
  : command_descriptor :=
  {| info := {| lc := l; type := cmd l; off := cursor |}; raw := bs |}.

(** The sum of [cmdsize] over a list of descriptors. *)
Definition sum_cmdsize (ds : list command_descriptor) : Z :=
  foldr (fun d acc => descriptor_cmdsize d + acc) 0 ds.

(** Modelled from the spec: the read of the 8 bytes [cmd], [cmdsize] at
    the cursor, the first step of section 4.4 for a descriptor
    ([mach_command_info_load (file, offset)] is declared in
    macho-command.h, its body is not among the sources). *)
Definition load_command_at (f : file_t) (e : endian) (cursor : Z)
  : result mach_load_command_t :=
  bs ← read_within f cursor MACH_LOAD_COMMAND_SIZE;
  mret {| cmd := word32 e bs 0; cmdsize := word32 e bs 1 |}.

(** Modelled from the spec: the walker of section 4.4 (the loop over the
    load commands is not among the sources).  For each of the [n]
    descriptors still to yield: read 8 bytes at the running cursor,
    validate [cmdsize >= 8] and [cursor + cmdsize <= base + sizeofcmds],
    capture [cmdsize] bytes, advance the cursor by [cmdsize].  After the
    loop the cursor must be [limit = base + sizeofcmds].  A [cmdsize]
    must also be a multiple of the pointer width (sections 3 and 7;
    section 8: [cmdsize % 8 == 0]), which is 8 for thin-64, the one
    layout that is decoded.  Violations are [MalformedLoadCommand]; a
    read that extends past the file size is [Truncated] (section 7). *)
Fixpoint walk_commands (f : file_t) (e : endian) (limit : Z) (n : nat) (cursor : Z)
  : result (list command_descriptor) :=
  match n with
  | O => if cursor =? limit then Ok [] else Err MalformedLoadCommand
  | S n' =>
      l ← load_command_at f e cursor;
      if (cmdsize l <? 8) || negb (cmdsize l mod 8 =? 0)
         || (limit <? cursor + cmdsize l)
      then Err MalformedLoadCommand
      else
        bs ← read_within f cursor (cmdsize l);
        rest ← walk_commands f e limit n' (cursor + cmdsize l);
        mret (descriptor_at cursor l bs :: rest)
  end.

Definition load_command_walker (f : file_t) (e : endian)
    (base_of_stream sizeofcmds : Z) (ncmds : nat)
  : result (list command_descriptor) :=
  walk_commands f e (base_of_stream + sizeofcmds) ncmds base_of_stream.

(** The stream the walker follows, told without the walker:
    [walked f e limit c ds c'] when [ds] are the descriptors of the
    well-formed commands that lie one after the other in the file from
    cursor [c] up to cursor [c']. *)
Inductive walked (f : file_t) (e : endian) (limit : Z)
  : Z -> list command_descriptor -> Z -> Prop :=
| walked_nil (c : Z) :
    walked f e limit c [] c
| walked_cons (c : Z) (l : mach_load_command_t) (bs : list byte)
      (ds : list command_descriptor) (c' : Z) :
    load_command_at f e c = Ok l ->
    8 <= cmdsize l ->
    cmdsize l mod 8 = 0 ->
    c + cmdsize l <= limit ->
    read_within f c (cmdsize l) = Ok bs ->
    walked f e limit (c + cmdsize l) ds c' ->
    walked f e limit c (descriptor_at c l bs :: ds) c'.

(** Descriptors in stream order: the first lies at [base], each next one
    where the previous one ends. *)
Fixpoint stream_order (base : Z) (ds : list command_descriptor) : Prop :=
  match ds with
  | [] => True
  | d :: ds' => off (info d) = base /\ stream_order (base + descriptor_cmdsize d) ds'
  end.

(** *** Vocabulary of the proofs about the walker *)

(** The walk can go on from cursor [c]: the command [l] found there is
    well formed and its bytes [bs] are in the file. *)
Definition advances (f : file_t) (e : endian) (limit : Z) (c : Z)
    (l : mach_load_command_t) (bs : list byte) : Prop :=
  load_command_at f e c = Ok l /\ 8 <= cmdsize l /\ cmdsize l mod 8 = 0 /\
  c + cmdsize l <= limit /\ read_within f c (cmdsize l) = Ok bs.

(** ** Top-level object *)

Section Thin_path.

(** The tables derived from the commands (segments with their sections,
    symbols, the string blob) and the decoders of sections 4.5 and 4.6
    that build them are kept abstract: their layouts are in headers that
    are not among the sources. *)
Context {tables : Type}.
Variable load_tables :
  file_t -> endian -> mach_header_64_t -> list command_descriptor -> result tables.

(** Modelled from the spec: the top-level object of section 3. *)
Record macho_t : Type := {
  file     : file_t;
  header   : mach_header_64_t;
  commands : list command_descriptor;
  derived  : tables
}.

(** Modelled from the spec: [parse (bytes)] of section 4.7 on the thin
    path of section 2: header decoder, load-command walker, command
    family decoders and tables, each error handed on to the caller. *)
Definition macho_parse (f : file_t) : result macho_t :=
  '(h, e, stream) ← mach_header_load f 0;
  ds ← load_command_walker f e stream (sizeofcmds h) (Z.to_nat (ncmds h));
  t ← load_tables f e h ds;
  mret {| file := f; header := h; commands := ds; derived := t |}.

End Thin_path.

Arguments macho_t tables : clear implicits.

(** ** Version strings *)

(** Modelled from the spec: the shared version helper of section 4.5 on a
    32-bit version, [X = bits 31:16], [Y = bits 15:8], [Z = bits 7:0]
    (the [XXXX.YY.ZZ] of [dylib_vers_t]). *)
Definition dylib_vers (vers : Z) : dylib_vers_t :=
  {| a := Z.shiftr vers 16;
     b := Z.land (Z.shiftr vers 8) 0xff;
     c := Z.land vers 0xff |}.

Definition dot : string := ".".

(** Modelled from the spec: [mach_lc_load_dylib_format_version] (declared
    in macho-command.h, body not among the sources) renders ["X.Y.Z"]. *)
Definition mach_lc_load_dylib_format_version (vers : Z) : string :=
  let v := dylib_vers vers in
  pretty (a v) +:+ dot +:+ pretty (b v) +:+ dot +:+ pretty (c v).

(** The five fields of a 64-bit source version, [a24.b10.c10.d10.e10],
    most significant first. *)
Definition source_version_fields (v : Z) : list Z :=
  [ Z.shiftr v 40;
    Z.land (Z.shiftr v 30) 0x3ff;
    Z.land (Z.shiftr v 20) 0x3ff;
    Z.land (Z.shiftr v 10) 0x3ff;
    Z.land v 0x3ff ].

Fixpoint dotted (fields : list Z) : string :=
  match fields with
  | [] => EmptyString
  | [x] => pretty x
  | x :: rest => pretty x +:+ dot +:+ dotted rest
  end.

(** Modelled from the spec: [mach_lc_source_version_string] (declared in
    macho-command.h, body not among the sources) renders ["A.B.C.D.E"]. *)
Definition mach_lc_source_version_string (svc : mach_source_version_command_t) : string :=
  dotted (source_version_fields (version svc)).

(** [x] is the field of [width] bits of [v] that starts at bit [lo]: bit
    [i] of [x] is bit [lo + i] of [v] below [width], and clear above. *)
Definition bit_field (v lo width x : Z) : Prop :=
  forall i, 0 <= i -> Z.testbit x i = (i <? width) && Z.testbit v (lo + i).

(** ** Sample files *)

(** The bytes of a 32-bit word, least significant first. *)
Definition le32 (n : Z) : list byte :=
  (fun i : nat => byte_of_Z (Z.shiftr n (8 * Z.of_nat i))) <$> seq 0 4.

(** A minimal little-endian arm64 executable: the header and one command
    of 16 bytes ([cmd = 0x1b], 8 bytes of payload). *)
Definition sample_file : file_t :=
  le32 MACH_MAGIC_64 ++ le32 CPU_TYPE_ARM64 ++ le32 CPU_SUBTYPE_ARM64_ALL ++
  le32 MACH_TYPE_EXECUTE ++ le32 1 ++ le32 16 ++ le32 0 ++ le32 0 ++
  le32 0x1b ++ le32 16 ++ le32 0 ++ le32 0.

(** The same file cut in the middle of its command. *)
Definition truncated_file : file_t := take 40 sample_file.

(** A file whose only command has 12 bytes: a multiple of 4, not of 8. *)
Definition misaligned_file : file_t :=
  le32 MACH_MAGIC_64 ++ le32 CPU_TYPE_ARM64 ++ le32 CPU_SUBTYPE_ARM64_ALL ++
  le32 MACH_TYPE_EXECUTE ++ le32 1 ++ le32 12 ++ le32 0 ++ le32 0 ++
  le32 0x1b ++ le32 12 ++ le32 0.

(** A file that starts with the magic of another format. *)
Definition bad_magic_file : file_t := [x7f; x45; x4c; x46; x02; x01].

(** The source version 1420.100.12.8.1. *)
Definition sample_source_version : mach_source_version_command_t :=
  {| svc_cmd := 0x2A; svc_cmdsize := 16;
     version := 1420 * 2 ^ 40 + 100 * 2 ^ 30 + 12 * 2 ^ 20 + 8 * 2 ^ 10 + 1 |}.

(** Tables that hold nothing. *)
Definition no_tables (f : file_t) (e : endian) (h : mach_header_64_t)
    (ds : list command_descriptor) : result unit := Ok tt.

(* ================================================================== *)
(** * Part IV-b: further definitions of the headers and of macho.c      *)
(* ================================================================== *)

(** ** Observations of a call of macho_read_magic *)

(** The four bytes at addresses 0..3, the destination of the copy of
    line 27, are all mapped. *)
Definition null_word_mapped (w : world) : Prop :=
  forall i : Z, 0 <= i < 4 -> is_Some (memory w !! i).

(** What the environment sees of a call: the value returned or the exit
    status, with the lines printed; or a fault. *)
Inductive observation : Type :=
| Obs_returned (v : Z) (out : list string)
| Obs_exited (status : Z) (out : list string)
| Obs_fault.

Definition observe (o : outcome Z) : observation :=
  match o with
  | Returned v w => Obs_returned v (stdout w)
  | Exited status w => Obs_exited status (stdout w)
  | Fault => Obs_fault
  end.

(** A second flat memory: other bytes at addresses 0..3, and a buffer at
    0x2000 that holds no magic. *)
Definition garbage_world : world :=
  World (<[0 := x41]> (<[1 := x42]> (<[2 := x43]> (<[3 := x44]>
          (<[0x2000 := x00]> ∅))))) [].

(** ** Byte swapping *)

(** [OSSwapInt32] (macho-header.h line 279) is the system's
    [_OSSwapInt32] of libkern, here by its portable definition: the four
    bytes of a 32-bit value selected by masks and shifted to the mirrored
    position. *)
Definition _OSSwapInt32 (x : Z) : Z :=
  Z.lor (Z.lor (Z.lor (Z.shiftr (Z.land x 0xff000000) 24)
                      (Z.shiftr (Z.land x 0x00ff0000) 8))
               (Z.shiftl (Z.land x 0x0000ff00) 8))
        (Z.shiftl (Z.land x 0x000000ff) 24).

Definition OSSwapInt32 (x : Z) : Z := _OSSwapInt32 x.

Ltac split_comparisons :=
  repeat match goal with
         | |- context [Z.ltb ?x ?y] => destruct (Z.ltb_spec x y); try lia
         | |- context [Z.leb ?x ?y] => destruct (Z.leb_spec x y); try lia
         end;
  cbn [andb orb];
  rewrite ?andb_true_r, ?andb_false_r, ?orb_false_r, ?orb_false_l.

(** ** CPU types *)

(** The two parts of a CPU type: the capability bits, selected by
    [CPU_ARCH_MASK], and the family in the bits below. *)
Definition cpu_capability (cputype : Z) : Z := Z.land cputype CPU_ARCH_MASK.

Definition cpu_family (cputype : Z) : Z := Z.land cputype (Z.lnot CPU_ARCH_MASK).

(** ** The layout of the structures

    Sizes and alignments as gcc and clang lay structures out on the
    System V and Darwin ABIs: a field is placed at the next multiple of
    its alignment, a structure is aligned as its strictest field and
    padded to a multiple of that. An enumeration is an [int]; a pointer
    has 8 bytes where [__LP64__] is defined and 4 bytes otherwise. The
    field lists below are the declarations of the two headers, in their
    order; [unless_lp64] is [#ifndef __LP64__]. *)

Inductive data_model : Set :=
| LP64
| ILP32.

Record ctype : Set := {
  sizeof  : Z;
  alignof : Z
}.

Definition uint8_t  : ctype := {| sizeof := 1; alignof := 1 |}.
Definition uint32_t : ctype := {| sizeof := 4; alignof := 4 |}.
Definition uint64_t : ctype := {| sizeof := 8; alignof := 8 |}.
Definition c_enum   : ctype := {| sizeof := 4; alignof := 4 |}.

Definition c_pointer (dm : data_model) : ctype :=
  match dm with
  | LP64 => {| sizeof := 8; alignof := 8 |}
  | ILP32 => {| sizeof := 4; alignof := 4 |}
  end.

Definition c_array (t : ctype) (n : Z) : ctype :=
  {| sizeof := n * sizeof t; alignof := alignof t |}.

Definition align_up (offset a : Z) : Z := (offset + a - 1) / a * a.

Definition c_field : Set := string * ctype.

Fixpoint field_offsets_from (offset : Z) (fields : list c_field) : list (string * Z) :=
  match fields with
  | [] => []
  | (name, t) :: rest =>
      let o := align_up offset (alignof t) in
      (name, o) :: field_offsets_from (o + sizeof t) rest
  end.

Fixpoint fields_end (offset : Z) (fields : list c_field) : Z :=
  match fields with
  | [] => offset
  | (_, t) :: rest => fields_end (align_up offset (alignof t) + sizeof t) rest
  end.

Definition fields_align (fields : list c_field) : Z :=
  foldr (fun f a => Z.max (alignof f.2) a) 1 fields.

Definition field_offsets (fields : list c_field) : list (string * Z) :=
  field_offsets_from 0 fields.

Definition c_struct (fields : list c_field) : ctype :=
  {| sizeof := align_up (fields_end 0 fields) (fields_align fields);
     alignof := fields_align fields |}.

Definition unless_lp64 (dm : data_model) (fields : list c_field) : list c_field :=
  match dm with
  | LP64 => []
  | ILP32 => fields
  end.

Definition struct_mach_header_64 : list c_field :=
  [ ("magic", uint32_t); ("cputype", c_enum); ("cpusubtype", c_enum);
    ("filetype", uint32_t); ("ncmds", uint32_t); ("sizeofcmds", uint32_t);
    ("flags", uint32_t); ("reserved", uint32_t) ].

Definition struct_mach_header : list c_field :=
  [ ("magic", uint32_t); ("cputype", c_enum); ("cpusubtype", c_enum);
    ("filetype", uint32_t); ("ncmds", uint32_t); ("sizeofcmds", uint32_t);
    ("flags", uint32_t) ].

Definition struct_fat_header_t : list c_field :=
  [ ("magic", uint32_t); ("nfat_arch", uint32_t) ].

Definition struct_fat_arch : list c_field :=
  [ ("cputype", c_enum); ("cpusubtype", c_enum); ("offset", uint32_t);
    ("size", uint32_t); ("align", uint32_t) ].

Definition struct_mach_load_command_t : list c_field :=
  [ ("cmd", uint32_t); ("cmdsize", uint32_t) ].

Definition struct_mach_command_info_t (dm : data_model) : list c_field :=
  [ ("lc", c_pointer dm); ("type", uint32_t); ("off", uint32_t) ].

Definition struct_mach_source_version_command_t : list c_field :=
  [ ("cmd", uint32_t); ("cmdsize", uint32_t); ("version", uint64_t) ].

Definition struct_mach_build_version_command_t : list c_field :=
  [ ("cmd", uint32_t); ("cmdsize", uint32_t); ("platform", uint32_t);
    ("minos", uint32_t); ("sdk", uint32_t); ("ntools", uint32_t) ].

Definition struct_build_tool_version : list c_field :=
  [ ("tool", uint32_t); ("version", uint32_t) ].

Definition struct_mach_uuid_command_t : list c_field :=
  [ ("cmd", uint32_t); ("cmdsize", uint32_t); ("uuid", c_array uint8_t 16) ].

Definition struct_mach_dyld_info_command_t : list c_field :=
  [ ("cmd", uint32_t); ("cmdsize", uint32_t);
    ("rebase_off", uint32_t); ("rebase_size", uint32_t);
    ("bind_off", uint32_t); ("bind_size", uint32_t);
    ("weak_bind_off", uint32_t); ("weak_bind_size", uint32_t);
    ("lazy_bind_off", uint32_t); ("lazy_bind_size", uint32_t);
    ("export_off", uint32_t); ("export_size", uint32_t) ].

Definition struct_mach_dylinker_command_t (dm : data_model) : list c_field :=
  [ ("cmd", uint32_t); ("cmdsize", uint32_t); ("offset", uint32_t) ]
  ++ unless_lp64 dm [ ("ptr", c_pointer dm) ].

Definition struct_dylib (dm : data_model) : list c_field :=
  [ ("offset", uint32_t) ] ++ unless_lp64 dm [ ("ptr", c_pointer dm) ] ++
  [ ("timestamp", uint32_t); ("current_version", uint32_t);
    ("compatibility_version", uint32_t) ].

Definition struct_mach_dylib_command_t (dm : data_model) : list c_field :=
  [ ("cmd", uint32_t); ("cmdsize", uint32_t); ("dylib", c_struct (struct_dylib dm)) ].

Definition struct_mach_load_dylinker_command_t (dm : data_model) : list c_field :=
  [ ("cmd", uint32_t); ("cmdsize", uint32_t); ("offset", uint32_t) ]
  ++ unless_lp64 dm [ ("ptr", c_pointer dm) ].

Definition struct_mach_entry_point_command_t : list c_field :=
  [ ("cmd", uint32_t); ("cmdsize", uint32_t); ("entryoff", uint64_t);
    ("stacksize", uint64_t) ].

Definition struct_mach_linkedit_data_command_t : list c_field :=
  [ ("cmd", uint32_t); ("cmdsize", uint32_t); ("dataoff", uint32_t);
    ("datasize", uint32_t) ].

Definition struct_mach_rpath_command_t (dm : data_model) : list c_field :=
  [ ("cmd", uint32_t); ("cmdsize", uint32_t); ("offset", uint32_t) ]
  ++ unless_lp64 dm [ ("ptr", c_pointer dm) ].

Definition load_command_structs (dm : data_model) : list (list c_field) :=
  [ struct_mach_load_command_t;
    struct_mach_source_version_command_t;
    struct_mach_build_version_command_t;
    struct_mach_uuid_command_t;
    struct_mach_dyld_info_command_t;
    struct_mach_dylinker_command_t dm;
    struct_mach_dylib_command_t dm;
    struct_mach_load_dylinker_command_t dm;
    struct_mach_entry_point_command_t;
    struct_mach_linkedit_data_command_t;
    struct_mach_rpath_command_t dm ].

(** [#define MACH_HEADER_SIZE sizeof(mach_header_t)], where
    [mach_header_t] is [struct mach_header]. *)
Definition MACH_HEADER_SIZE : Z := sizeof (c_struct struct_mach_header).

Definition MACH_COMMAND_INFO_SIZE (dm : data_model) : Z :=
  sizeof (c_struct (struct_mach_command_info_t dm)).

(** A field of four bytes, aligned on four. *)
Definition is_word (t : ctype) : Prop := sizeof t = 4 /\ alignof t = 4.

(** A structure laid out as consecutive 32-bit words: field [i] at byte
    [4 * i], no padding. *)
Definition packed_words (fields : list c_field) : Prop :=
  (field_offsets fields).*2 = (fun i => 4 * Z.of_nat i) <$> seq 0 (length fields)
  /\ sizeof (c_struct fields) = 4 * Z.of_nat (length fields).

(** A structure that starts as [mach_load_command_t] does. *)
Definition command_prefix (fields : list c_field) : Prop :=
  take 2 fields = [ ("cmd", uint32_t); ("cmdsize", uint32_t) ]
  /\ take 2 (field_offsets fields) = [ ("cmd", 0); ("cmdsize", 4) ]
  /\ MACH_LOAD_COMMAND_SIZE <= sizeof (c_struct fields)
  /\ sizeof (c_struct fields) mod 4 = 0.

(** [offsetof]: the offset of the first field of that name. *)
Definition offsetof (fields : list c_field) (name : string) : option Z :=
  snd <$> List.find (fun p => bool_decide (p.1 = name)) (field_offsets fields).

(** The bytes a pointer field compiled under [#ifndef __LP64__] adds. *)
Definition lp64_growth (dm : data_model) : Z :=
  match dm with
  | LP64 => 0
  | ILP32 => 4
  end.

(* ================================================================== *)
(** * Part V: properties of macho.c                                    *)
(* ================================================================== *)

Section Read_magic.

Variables buf offset : Z.
Variable w : world.

(** The copy of line 27 never changes the local [magic]. *)
Lemma macho_read_magic_copy_zero (m : Z) (w1 : world) :
  macho_read_magic_copy buf offset w = Returned m w1 ->
  m = 0 /\ stdout w1 = stdout w.
Proof.
  unfold macho_read_magic_copy, mbind, prog_mbind, prog_bind, memcpy.
  destruct (store_bytes _ _ _); [|discriminate].
  cbn. intros [= <- <-]. done.
Qed.

Lemma macho_read_magic_copy_not_exit (status : Z) (w1 : world) :
  macho_read_magic_copy buf offset w <> Exited status w1.
Proof.
  unfold macho_read_magic_copy, mbind, prog_mbind, prog_bind, memcpy.
  destruct (store_bytes _ _ _); cbn; discriminate.
Qed.

(** The function is its two halves run one after the other. *)
Lemma macho_read_magic_stages :
  macho_read_magic buf offset w =
  match macho_read_magic_copy buf offset w with
  | Returned m w1 => macho_read_magic_check m w1
  | Exited status w1 => Exited status w1
  | Fault => Fault
  end.
Proof. reflexivity. Qed.

Lemma macho_read_magic_check_zero :
  macho_read_magic_check 0 w = error_branch w.
Proof. reflexivity. Qed.

Lemma macho_read_magic_check_nonzero (m : Z) :
  m <> 0 -> macho_read_magic_check m w = Returned m w.
Proof.
  intros Hm. unfold macho_read_magic_check.
  destruct (Z.eqb_spec m 0); [contradiction|reflexivity].
Qed.

(** Whatever the buffer, the offset and the machine, the call ends in
    the error branch or in a fault. *)
Lemma macho_read_magic_outcome :
  (exists w1, macho_read_magic_copy buf offset w = Returned 0 w1 /\
              macho_read_magic buf offset w = error_branch w1) \/
  macho_read_magic buf offset w = Fault.
Proof.
  rewrite macho_read_magic_stages.
  destruct (macho_read_magic_copy buf offset w) as [m w1|status w1|] eqn:Hcopy.
  - left. apply macho_read_magic_copy_zero in Hcopy as [-> _].
    exists w1. split; reflexivity.
  - exfalso. exact (macho_read_magic_copy_not_exit _ _ Hcopy).
  - right. reflexivity.
Qed.

Lemma macho_read_magic_never_returns (v : Z) (w' : world) :
  macho_read_magic buf offset w <> Returned v w'.
Proof.
  destruct macho_read_magic_outcome as [(w1 & _ & ->)| ->]; discriminate.
Qed.

End Read_magic.

(** C1 (the failing input of the defect).  The claim asks for the value of
    the four little-endian bytes at [buf + offset].  On the buffer
    [CF FA ED FE] at offset 0 that value is [0xfeedfacf]; the function
    faults in the copy where address 0 is not mapped, and where it is
    mapped it prints the error message and exits with status 0, the
    buffer untouched.  It returns the value on neither machine. *)
Theorem macho_read_magic_misses_buffer :
  magic_at (memory hosted_world) sample_buf 0 = Some MACH_MAGIC_64 /\
  magic_at (memory flat_world) sample_buf 0 = Some MACH_MAGIC_64 /\
  macho_read_magic sample_buf 0 hosted_world = Fault /\
  (exists w1,
     macho_read_magic sample_buf 0 flat_world = Exited 0 w1 /\
     stdout w1 = [magic_error_message] /\
     load_bytes (memory w1) 0 4 = Some (take 4 (pointer_repr sample_buf)) /\
     magic_at (memory w1) sample_buf 0 = Some MACH_MAGIC_64) /\
  (forall w v w', macho_read_magic sample_buf 0 w <> Returned v w').
Proof.
  split; [vm_compute; reflexivity|].
  split; [vm_compute; reflexivity|].
  split; [vm_compute; reflexivity|].
  split.
  - destruct (macho_read_magic sample_buf 0 flat_world) as [v w1|status w1|] eqn:Hrun.
    + vm_compute in Hrun. discriminate.
    + exists w1. vm_compute in Hrun. injection Hrun as <- <-.
      repeat split; vm_compute; reflexivity.
    + vm_compute in Hrun. discriminate.
  - intros w v w'. apply macho_read_magic_never_returns.
Qed.

(** C2 (the claim as stated fails).  On a machine where address 0 is
    mapped the read of the magic fails, and the failure is not handed to
    the caller as an error result: the message is printed and the process
    is ended by [exit (0)].  (Where address 0 is not mapped the call
    faults, and nothing reaches the caller either.) *)
Lemma macho_read_magic_exits_on_failure :
  macho_read_magic sample_buf 0 flat_world =
    Exited 0 (after_error_message
                (World (<[0 := x00]> (<[1 := x10]> (<[2 := x00]> (<[3 := x00]>
                          sample_memory)))) [])) /\
  ~ returned_to_caller (macho_read_magic sample_buf 0 flat_world) /\
  ~ returned_to_caller (macho_read_magic sample_buf 0 hosted_world).
Proof.
  split; [vm_compute; reflexivity|].
  split; intros (v & w' & Hrun);
    exact (macho_read_magic_never_returns _ _ _ _ _ Hrun).
Qed.

(** C9.  The result of [macho_read_magic] does not depend on the offset:
    for every buffer and every two offsets the two calls are the same
    computation, on every machine. *)
Theorem macho_read_magic_offset_irrelevant (buf o1 o2 : Z) :
  macho_read_magic buf o1 = macho_read_magic buf o2.
Proof. reflexivity. Qed.

(** C2 (amended).  A failure to read the magic is not handed to the
    caller of [macho_read_magic] as an error result: when the magic the
    function computed is zero it prints the error message and ends the
    process with [exit (0)], and nothing is returned to its caller.
    Whenever the function exits, the status is 0 and the output is the
    output so far followed by that message. *)
Theorem read_magic_failure_ends_process :
  (forall buf offset w w1,
     macho_read_magic_copy buf offset w = Returned 0 w1 ->
     macho_read_magic buf offset w = Exited 0 (after_error_message w1) /\
     ~ returned_to_caller (macho_read_magic buf offset w)) /\
  (forall buf offset w status w',
     macho_read_magic buf offset w = Exited status w' ->
     status = 0 /\ stdout w' = stdout w ++ [magic_error_message]).
Proof.
  split.
  - intros buf offset w w1 Hcopy.
    assert (macho_read_magic buf offset w = Exited 0 (after_error_message w1)) as Hrun
      by (rewrite macho_read_magic_stages, Hcopy; reflexivity).
    split; [exact Hrun|]. intros (v & w' & Hret). congruence.
  - intros buf offset w status w' Hrun.
    destruct (macho_read_magic_outcome buf offset w) as [(w1 & Hcopy & Hbranch)|Hfault];
      [|congruence].
    apply macho_read_magic_copy_zero in Hcopy as [_ Hout].
    rewrite Hbranch in Hrun. unfold error_branch in Hrun.
    injection Hrun as <- <-. cbn. by rewrite Hout.
Qed.

(** C2 (amended) on the machine where the copy goes through. *)
Lemma read_magic_failure_ends_process_witness :
  exists w1,
    macho_read_magic sample_buf 0 flat_world = Exited 0 (after_error_message w1) /\
    stdout (after_error_message w1) = [magic_error_message].
Proof.
  destruct read_magic_failure_ends_process as [Hmagic Hexit].
  destruct (macho_read_magic_copy sample_buf 0 flat_world) as [m w1| |] eqn:Hcopy;
    [|vm_compute in Hcopy; discriminate..].
  assert (m = 0) as -> by (vm_compute in Hcopy; congruence).
  exists w1. destruct (Hmagic _ _ _ _ Hcopy) as [Hrun _].
  split; [exact Hrun|].
  destruct (Hexit _ _ _ _ _ Hrun) as [_ Hout]. exact Hout.
Defined.


(* ================================================================== *)
(** * Part VI: properties of the parser                                *)
(* ================================================================== *)

(** ** Bytes and reads *)

Lemma byte_value_range (x : byte) : 0 <= Z.of_N (Byte.to_N x) < 256.
Proof. pose proof (Byte.to_N_bounded x). lia. Qed.

Lemma byte_value_inj (x y : byte) :
  Z.of_N (Byte.to_N x) = Z.of_N (Byte.to_N y) -> x = y.
Proof.
  intros H%(inj Z.of_N).
  pose proof (Byte.of_to_N x) as Hx. rewrite H, Byte.of_to_N in Hx. congruence.
Qed.

Lemma le_value_cons (x : byte) (bs : list byte) :
  le_value (x :: bs) = Z.of_N (Byte.to_N x) + 256 * le_value bs.
Proof. reflexivity. Qed.

Lemma le_value_range (bs : list byte) :
  0 <= le_value bs < 256 ^ Z.of_nat (length bs).
Proof.
  induction bs as [|x bs IH].
  - cbn. lia.
  - rewrite le_value_cons. pose proof (byte_value_range x).
    replace (Z.of_nat (length (x :: bs))) with (Z.succ (Z.of_nat (length bs)))
      by (cbn [length]; lia).
    rewrite Z.pow_succ_r by lia. lia.
Qed.

Lemma le_value_inj (bs1 bs2 : list byte) :
  length bs1 = length bs2 -> le_value bs1 = le_value bs2 -> bs1 = bs2.
Proof.
  revert bs2. induction bs1 as [|x bs1 IH]; intros [|y bs2] Hlen Hval;
    try discriminate; [reflexivity|].
  rewrite !le_value_cons in Hval.
  pose proof (byte_value_range x). pose proof (byte_value_range y).
  assert (Z.of_N (Byte.to_N x) = Z.of_N (Byte.to_N y)) as Hxy by lia.
  f_equal; [by apply byte_value_inj|].
  apply IH; [by injection Hlen|lia].
Qed.

Lemma decode_uint_range (e : endian) (bs : list byte) :
  0 <= decode_uint e bs < 256 ^ Z.of_nat (length bs).
Proof.
  destruct e; cbn.
  - apply le_value_range.
  - rewrite <- length_reverse. apply le_value_range.
Qed.

Lemma word32_range (e : endian) (bs : list byte) (i : nat) :
  0 <= word32 e bs i < 2 ^ 32.
Proof.
  unfold word32.
  pose proof (decode_uint_range e (take 4 (drop (4 * i) bs))) as H.
  assert (Z.of_nat (length (take 4 (drop (4 * i) bs))) <= 4) as Hlen
    by (rewrite length_take; lia).
  assert (256 ^ Z.of_nat (length (take 4 (drop (4 * i) bs))) <= 256 ^ 4)
    by (apply Z.pow_le_mono_r; lia).
  change (2 ^ 32) with (256 ^ 4). lia.
Qed.

Lemma read_at_Ok (f : file_t) (offset len : Z) (bs : list byte) :
  read_at f offset len = Ok bs <->
  0 <= offset /\ 0 <= len /\ offset + len <= file_size f /\
  bs = take (Z.to_nat len) (drop (Z.to_nat offset) f).
Proof.
  unfold read_at.
  destruct (Z.leb_spec 0 offset), (Z.leb_spec 0 len),
    (Z.leb_spec (offset + len) (file_size f)); cbn;
    split; try (intros [= <-]); try (intros (? & ? & ? & ->)); try done; lia.
Qed.

Lemma read_at_Err (f : file_t) (offset len : Z) (x : error) :
  read_at f offset len = Err x -> x = IoOutOfRange.
Proof. unfold read_at. case_match; congruence. Qed.

Lemma read_within_Ok (f : file_t) (offset len : Z) (bs : list byte) :
  read_within f offset len = Ok bs <-> read_at f offset len = Ok bs.
Proof. unfold read_within. destruct (read_at f offset len); split; congruence. Qed.

Lemma read_within_Err (f : file_t) (offset len : Z) (x : error) :
  read_within f offset len = Err x -> x = Truncated.
Proof. unfold read_within. destruct (read_at f offset len); congruence. Qed.

Lemma read_at_length (f : file_t) (offset len : Z) (bs : list byte) :
  read_at f offset len = Ok bs -> Z.of_nat (length bs) = len.
Proof.
  intros (Ho & Hl & Hsz & ->)%read_at_Ok. unfold file_size in Hsz.
  rewrite length_take, length_drop. lia.
Qed.

Lemma load_command_at_Err (f : file_t) (e : endian) (c : Z) (x : error) :
  load_command_at f e c = Err x -> x = Truncated.
Proof.
  unfold load_command_at, mbind, result_mbind, result_bind.
  destruct (read_within f c MACH_LOAD_COMMAND_SIZE) eqn:Hread; [discriminate|].
  intros [= <-]. by apply read_within_Err in Hread.
Qed.

Lemma load_command_at_range (f : file_t) (e : endian) (c : Z) (l : mach_load_command_t) :
  load_command_at f e c = Ok l -> 0 <= cmdsize l < 2 ^ 32.
Proof.
  unfold load_command_at, mbind, result_mbind, result_bind.
  destruct (read_within f c MACH_LOAD_COMMAND_SIZE); [|discriminate].
  intros [= <-]. apply word32_range.
Qed.

(** ** The load-command walker *)

Section Walker.

Variable f : file_t.
Variable e : endian.
Variable limit : Z.

(** A stream is empty, or starts with a command the walk can go on from. *)
Lemma walked_inv (c : Z) (ds : list command_descriptor) (c' : Z) :
  walked f e limit c ds c' ->
  (ds = [] /\ c' = c) \/
  (exists l bs ds', advances f e limit c l bs /\
                    ds = descriptor_at c l bs :: ds' /\
                    walked f e limit (c + cmdsize l) ds' c').
Proof.
  intros [c0|c0 l bs ds' c0' Hl H8 Hal Hlim Hbs Hrest]; [by left|].
  right. exists l, bs, ds'. by repeat split.
Qed.

(** The sizes of the commands of a stream add up to its length. *)
Lemma walked_sum (c : Z) (ds : list command_descriptor) (c' : Z) :
  walked f e limit c ds c' -> c + sum_cmdsize ds = c'.
Proof.
  induction 1 as [c0|c0 l bs ds' c0' Hl H8 Hal Hlim Hbs Hrest IH].
  - cbn. lia.
  - change (sum_cmdsize (descriptor_at c0 l bs :: ds'))
      with (cmdsize l + sum_cmdsize ds'). lia.
Qed.

Lemma walked_stream_order (c : Z) (ds : list command_descriptor) (c' : Z) :
  walked f e limit c ds c' -> stream_order c ds.
Proof. induction 1; cbn; auto. Qed.

(** Every descriptor holds the [cmdsize] bytes of its command; no
    command is shorter than its two leading words, and every [cmdsize]
    is a multiple of 8. *)
Lemma walked_raw_length (c : Z) (ds : list command_descriptor) (c' : Z) :
  walked f e limit c ds c' ->
  Forall (fun d => Z.of_nat (length (raw d)) = descriptor_cmdsize d /\
                   8 <= descriptor_cmdsize d /\
                   descriptor_cmdsize d mod 8 = 0) ds.
Proof.
  induction 1 as [c0|c0 l bs ds' c0' Hl H8 Hal Hlim Hbs Hrest IH]; constructor; [|done].
  apply read_within_Ok, read_at_length in Hbs. by repeat split.
Qed.

Lemma walk_commands_S (n : nat) (c : Z) :
  walk_commands f e limit (S n) c =
  match load_command_at f e c with
  | Err x => Err x
  | Ok l =>
      if (cmdsize l <? 8) || negb (cmdsize l mod 8 =? 0)
         || (limit <? c + cmdsize l)
      then Err MalformedLoadCommand
      else
        match read_within f c (cmdsize l) with
        | Err x => Err x
        | Ok bs =>
            match walk_commands f e limit n (c + cmdsize l) with
            | Err x => Err x
            | Ok rest => Ok (descriptor_at c l bs :: rest)
            end
        end
  end.
Proof. reflexivity. Qed.

(** What the walker does at one command: it stops there with an error,
    or it goes on from the next cursor. *)
Lemma walk_commands_step (n : nat) (c : Z) :
  (exists x, (forall l bs, ~ advances f e limit c l bs) /\
             walk_commands f e limit (S n) c = Err x) \/
  (exists l bs, advances f e limit c l bs /\
                walk_commands f e limit (S n) c =
                match walk_commands f e limit n (c + cmdsize l) with
                | Err x => Err x
                | Ok rest => Ok (descriptor_at c l bs :: rest)
                end).
Proof.
  rewrite walk_commands_S.
  destruct (load_command_at f e c) as [l|x] eqn:Hl.
  - destruct (Z.ltb_spec (cmdsize l) 8) as [H8|H8]; cbn [orb].
    { left. exists MalformedLoadCommand. split; [|done].
      intros l' bs' (Hl' & ? & _). assert (l' = l) as -> by congruence. lia. }
    destruct (Z.eqb_spec (cmdsize l mod 8) 0) as [Hal|Hal]; cbn [negb orb].
    2:{ left. exists MalformedLoadCommand. split; [|done].
        intros l' bs' (Hl' & _ & ? & _). assert (l' = l) as -> by congruence. done. }
    destruct (Z.ltb_spec limit (c + cmdsize l)) as [Hlim|Hlim].
    { left. exists MalformedLoadCommand. split; [|done].
      intros l' bs' (Hl' & _ & _ & ? & _). assert (l' = l) as -> by congruence. lia. }
    destruct (read_within f c (cmdsize l)) as [bs|x] eqn:Hbs.
    + right. exists l, bs. by repeat split.
    + left. exists x. split; [|done].
      intros l' bs' (Hl' & _ & _ & _ & Hbs').
      assert (l' = l) as -> by congruence. congruence.
  - left. exists x. split; [|done].
    intros l' bs' (Hl' & _). congruence.
Qed.

(** The walker succeeds exactly on a stream of [n] well-formed commands
    that ends at the limit. *)
Lemma walk_commands_Ok_iff (n : nat) (c : Z) (ds : list command_descriptor) :
  walk_commands f e limit n c = Ok ds <->
  walked f e limit c ds limit /\ length ds = n.
Proof.
  revert c ds. induction n as [|n IH]; intros c ds.
  - cbn. destruct (Z.eqb_spec c limit) as [->|Hne]; split.
    + intros [= <-]. split; [constructor|done].
    + intros [_ Hlen]. by destruct ds.
    + done.
    + intros [Hwalk Hlen]. destruct ds; [|done].
      apply walked_inv in Hwalk as [[_ ?]|(? & ? & ? & _ & ? & _)]; done.
  - destruct (walk_commands_step n c)
      as [(x & Hstuck & ->)|(l & bs & Hadv & ->)].
    + split; [done|]. intros [Hwalk Hlen].
      apply walked_inv in Hwalk as [[-> _]|(l & bs & ? & Hadv & _)]; [done|].
      by destruct (Hstuck l bs).
    + specialize (IH (c + cmdsize l)).
      destruct (walk_commands f e limit n (c + cmdsize l)) as [rest|x].
      * destruct (proj1 (IH rest) eq_refl) as [Hrest Hlen].
        destruct Hadv as (Hl & H8 & Hal & Hlim & Hbs). split.
        -- intros [= <-]. split; [by constructor|cbn; lia].
        -- intros [Hwalk Hlen'].
           apply walked_inv in Hwalk as [[-> _]|(l' & bs' & ds' & Hadv' & -> & Hrest')];
             [done|].
           destruct Hadv' as (Hl' & _ & _ & _ & Hbs').
           assert (l' = l) as -> by congruence.
           assert (bs' = bs) as -> by congruence.
           assert (Ok rest = Ok ds') as [= ->]; [|done].
           apply IH. split; [done|]. cbn in Hlen'. lia.
      * split; [done|]. intros [Hwalk Hlen].
        apply walked_inv in Hwalk as [[-> _]|(l' & bs' & ds' & Hadv' & -> & Hrest')];
          [done|].
        destruct Hadv as (Hl & _), Hadv' as (Hl' & _).
        assert (l' = l) as -> by congruence.
        assert (@Err (list command_descriptor) x = Ok ds'); [|done].
        apply IH. split; [done|]. cbn in Hlen. lia.
Qed.

End Walker.

(** Boundary behaviours of sections 7 and 8: no command in an empty
    command area is no error; a command that exceeds what is left of the
    command area is malformed, and so is one whose size is not a multiple
    of 8; a command area that runs past the end of the file is
    [Truncated]. *)
Lemma walker_no_commands (f : file_t) (e : endian) (base : Z) :
  load_command_walker f e base 0 0 = Ok [].
Proof.
  unfold load_command_walker. cbn. by rewrite Z.add_0_r, Z.eqb_refl.
Qed.

Lemma walker_command_exceeds_stream :
  load_command_walker sample_file LittleEndian 32 8 1 = Err MalformedLoadCommand.
Proof. vm_compute. reflexivity. Qed.

Lemma walker_misaligned_command :
  load_command_walker misaligned_file LittleEndian 32 12 1 = Err MalformedLoadCommand.
Proof. vm_compute. reflexivity. Qed.

Lemma walker_truncated_file :
  load_command_walker truncated_file LittleEndian 32 16 1 = Err Truncated.
Proof. vm_compute. reflexivity. Qed.

(** ** The top-level parse *)

Section Thin_path_facts.

Context {tables : Type}.
Variable load_tables :
  file_t -> endian -> mach_header_64_t -> list command_descriptor -> result tables.

(** The top-level parse is its stages chained: the first error is the
    result, and an object is built only when every stage succeeded. *)
Lemma macho_parse_stages (f : file_t) :
  match mach_header_load f 0 with
  | Err x => macho_parse load_tables f = Err x
  | Ok (h, e, stream) =>
      match load_command_walker f e stream (sizeofcmds h) (Z.to_nat (ncmds h)) with
      | Err x => macho_parse load_tables f = Err x
      | Ok ds =>
          match load_tables f e h ds with
          | Err x => macho_parse load_tables f = Err x
          | Ok t =>
              macho_parse load_tables f =
              Ok {| file := f; header := h; commands := ds; derived := t |}
          end
      end
  end.
Proof.
  unfold macho_parse.
  destruct (mach_header_load f 0) as [[[h e] stream]|x]; [|reflexivity].
  cbn. destruct (load_command_walker _ _ _ _ _) as [ds|x]; [|reflexivity].
  cbn. destruct (load_tables f e h ds) as [t|x]; reflexivity.
Qed.

Lemma mach_header_load_Ok (f : file_t) (base : Z)
    (h : mach_header_64_t) (e : endian) (stream : Z) :
  mach_header_load f base = Ok (h, e, stream) ->
  stream = base + MACH_HEADER_64_SIZE /\
  exists bs, read_within f base MACH_HEADER_64_SIZE = Ok bs /\
             h = decode_mach_header_64 e bs.
Proof.
  unfold mach_header_load.
  destruct (read_within f base 4) as [m|]; [|done]. cbn.
  destruct (mach_header_type_of_magic (le_value m)); try done.
  destruct (read_within f base MACH_HEADER_64_SIZE) as [bs|]; [|done]. cbn.
  intros [= <- <- <-]. split; [done|]. by exists bs.
Qed.

Lemma macho_parse_Ok (f : file_t) (m : macho_t tables) :
  macho_parse load_tables f = Ok m ->
  exists e stream,
    mach_header_load f 0 = Ok (header m, e, stream) /\
    load_command_walker f e stream (sizeofcmds (header m))
      (Z.to_nat (ncmds (header m))) = Ok (commands m) /\
    load_tables f e (header m) (commands m) = Ok (derived m) /\
    file m = f.
Proof.
  pose proof (macho_parse_stages f) as Hstages.
  destruct (mach_header_load f 0) as [[[h e] stream]|x]; [|congruence].
  destruct (load_command_walker _ _ _ _ _) as [ds|x] eqn:Hwalk; [|congruence].
  destruct (load_tables f e h ds) as [t|x] eqn:Htables; [|congruence].
  rewrite Hstages. intros [= <-]. cbn. by exists e, stream.
Qed.

End Thin_path_facts.

(** C3.  For every [macho] a successful parse produces, the sum of
    [cmdsize] over its command descriptors is [header.sizeofcmds] and the
    number of descriptors is [header.ncmds]. *)
Theorem macho_parse_command_invariants {tables : Type}
    (load_tables : file_t -> endian -> mach_header_64_t ->
                   list command_descriptor -> result tables)
    (f : file_t) (m : macho_t tables) :
  macho_parse load_tables f = Ok m ->
  sum_cmdsize (commands m) = sizeofcmds (header m) /\
  Z.of_nat (length (commands m)) = ncmds (header m).
Proof.
  intros (e & stream & Hheader & Hwalk & _)%macho_parse_Ok.
  apply mach_header_load_Ok in Hheader as (_ & bs & _ & Hh).
  apply walk_commands_Ok_iff in Hwalk as [Hwalked Hlen].
  apply walked_sum in Hwalked. split; [lia|].
  rewrite Hlen, Hh. cbn. pose proof (word32_range e bs 4). lia.
Qed.

(** C3 on [sample_file]: one command of 16 bytes. *)
Lemma macho_parse_command_invariants_witness :
  exists m,
    macho_parse no_tables sample_file = Ok m /\
    sum_cmdsize (commands m) = 16 /\ length (commands m) = 1%nat.
Proof.
  destruct (macho_parse no_tables sample_file) as [m|x] eqn:Hparse;
    [|vm_compute in Hparse; discriminate].
  exists m. split; [reflexivity|].
  destruct (macho_parse_command_invariants no_tables sample_file m Hparse)
    as [Hsum Hcount].
  assert (header m = decode_mach_header_64 LittleEndian (take 32 sample_file)) as Hh
    by (vm_compute in Hparse; injection Hparse as <-; vm_compute; reflexivity).
  rewrite Hh in Hsum, Hcount. split; [exact Hsum|].
  apply Nat2Z.inj. rewrite Hcount. vm_compute. reflexivity.
Defined.

(** ** Magic dispatch *)

Lemma mach_header_type_of_magic_spec (m : Z) :
  (mach_header_type_of_magic m = MH_TYPE_MACHO64 <->
   m = MACH_MAGIC_64 \/ m = MACH_CIGAM_64) /\
  (mach_header_type_of_magic m = MH_TYPE_MACHO32 <->
   m = MACH_MAGIC_32 \/ m = MACH_CIGAM_32) /\
  (mach_header_type_of_magic m = MH_TYPE_FAT <->
   m = MACH_MAGIC_UNIVERSAL \/ m = MACH_CIGAM_UNIVERSAL) /\
  (mach_header_type_of_magic m = MH_TYPE_UNKNOWN <->
   m <> MACH_MAGIC_64 /\ m <> MACH_CIGAM_64 /\
   m <> MACH_MAGIC_32 /\ m <> MACH_CIGAM_32 /\
   m <> MACH_MAGIC_UNIVERSAL /\ m <> MACH_CIGAM_UNIVERSAL).
Proof.
  unfold mach_header_type_of_magic.
  destruct (Z.eqb_spec m MACH_MAGIC_64), (Z.eqb_spec m MACH_CIGAM_64),
    (Z.eqb_spec m MACH_MAGIC_32), (Z.eqb_spec m MACH_CIGAM_32),
    (Z.eqb_spec m MACH_MAGIC_UNIVERSAL), (Z.eqb_spec m MACH_CIGAM_UNIVERSAL);
    cbn [orb];
    unfold MACH_MAGIC_64, MACH_CIGAM_64, MACH_MAGIC_32, MACH_CIGAM_32,
      MACH_MAGIC_UNIVERSAL, MACH_CIGAM_UNIVERSAL in *;
    repeat split; intros; try discriminate; try tauto; try lia.
Qed.

(** The first four bytes of a file, as [mach_header_verify] reads them. *)
Lemma read_magic_bytes (f : file_t) :
  (4 <= length f)%nat ->
  read_at f 0 4 = Ok (take 4 f) /\ length (take 4 f) = 4%nat.
Proof.
  intros Hlen. split; [|rewrite length_take; lia].
  apply read_at_Ok. unfold file_size. repeat split; lia.
Qed.

Lemma read_magic_short (f : file_t) :
  (length f < 4)%nat -> read_at f 0 4 = Err IoOutOfRange.
Proof.
  intros Hlen. destruct (read_at f 0 4) as [bs|x] eqn:Hread.
  - apply read_at_Ok in Hread as (_ & _ & Hsz & _). unfold file_size in Hsz. lia.
  - by apply read_at_Err in Hread as ->.
Qed.

(** The six magic numbers of macho-header.h are the six byte patterns of
    the table, read least significant byte first. *)
Lemma magic_bytes_table (bs : list byte) :
  length bs = 4%nat ->
  (le_value bs = MACH_MAGIC_64 <-> bs = [xcf; xfa; xed; xfe]) /\
  (le_value bs = MACH_CIGAM_64 <-> bs = [xfe; xed; xfa; xcf]) /\
  (le_value bs = MACH_MAGIC_32 <-> bs = [xce; xfa; xed; xfe]) /\
  (le_value bs = MACH_CIGAM_32 <-> bs = [xfe; xed; xfa; xce]) /\
  (le_value bs = MACH_CIGAM_UNIVERSAL <-> bs = [xca; xfe; xba; xbe]) /\
  (le_value bs = MACH_MAGIC_UNIVERSAL <-> bs = [xbe; xba; xfe; xca]).
Proof.
  intros Hlen.
  change MACH_MAGIC_64 with (le_value [xcf; xfa; xed; xfe]).
  change MACH_CIGAM_64 with (le_value [xfe; xed; xfa; xcf]).
  change MACH_MAGIC_32 with (le_value [xce; xfa; xed; xfe]).
  change MACH_CIGAM_32 with (le_value [xfe; xed; xfa; xce]).
  change MACH_CIGAM_UNIVERSAL with (le_value [xca; xfe; xba; xbe]).
  change MACH_MAGIC_UNIVERSAL with (le_value [xbe; xba; xfe; xca]).
  repeat split; try (intros ->; reflexivity);
    intros Hvalue; by apply le_value_inj.
Qed.

Lemma mach_header_verify_long (f : file_t) :
  (4 <= length f)%nat ->
  mach_header_verify f = mach_header_type_of_magic (le_value (take 4 f)).
Proof.
  intros Hlen. unfold mach_header_verify, mach_header_verify_at.
  by destruct (read_magic_bytes f Hlen) as [-> _].
Qed.

Lemma mach_header_verify_short (f : file_t) :
  (length f < 4)%nat ->
  mach_header_verify f = MH_TYPE_UNKNOWN /\
  forall pattern : list byte, length pattern = 4%nat -> take 4 f <> pattern.
Proof.
  intros Hlen. split.
  - unfold mach_header_verify, mach_header_verify_at.
    by rewrite read_magic_short.
  - intros pattern Hpattern Heq. apply (f_equal length) in Heq.
    rewrite length_take in Heq. lia.
Qed.

Lemma unknown_magic_is_bad_magic (f : file_t) :
  (4 <= length f)%nat -> mach_header_verify f = MH_TYPE_UNKNOWN ->
  mach_header_load f 0 = Err BadMagic /\
  forall (tables : Type)
         (load_tables : file_t -> endian -> mach_header_64_t ->
                        list command_descriptor -> result tables),
    macho_parse load_tables f = Err BadMagic.
Proof.
  intros Hlen. unfold mach_header_verify, mach_header_verify_at.
  destruct (read_magic_bytes f Hlen) as [Hread _]. rewrite Hread. intros Hkind.
  assert (mach_header_load f 0 = Err BadMagic) as Hload.
  { unfold mach_header_load.
    rewrite (proj2 (read_within_Ok f 0 4 (take 4 f)) Hread). cbn.
    by rewrite Hkind. }
  split; [exact Hload|].
  intros tables load_tables. unfold macho_parse. by rewrite Hload.
Qed.

(** C5.  Inspecting the first four bytes of a file classifies it as
    exactly one header kind: 64-bit for [CF FA ED FE] and [FE ED FA CF],
    32-bit for [CE FA ED FE] and [FE ED FA CE], universal for
    [CA FE BA BE] and [BE BA FE CA], unknown for anything else; and a file
    whose four first bytes are not a recognised magic fails with
    [BadMagic], in the header decoder and in the top-level parse. *)
Theorem mach_header_verify_table (f : file_t) :
  (mach_header_verify f = MH_TYPE_MACHO64 <->
   take 4 f = [xcf; xfa; xed; xfe] \/ take 4 f = [xfe; xed; xfa; xcf]) /\
  (mach_header_verify f = MH_TYPE_MACHO32 <->
   take 4 f = [xce; xfa; xed; xfe] \/ take 4 f = [xfe; xed; xfa; xce]) /\
  (mach_header_verify f = MH_TYPE_FAT <->
   take 4 f = [xca; xfe; xba; xbe] \/ take 4 f = [xbe; xba; xfe; xca]) /\
  (mach_header_verify f = MH_TYPE_UNKNOWN <-> take 4 f ∉ recognized_magics) /\
  ((4 <= length f)%nat -> mach_header_verify f = MH_TYPE_UNKNOWN ->
   mach_header_load f 0 = Err BadMagic /\
   forall (tables : Type)
          (load_tables : file_t -> endian -> mach_header_64_t ->
                         list command_descriptor -> result tables),
     macho_parse load_tables f = Err BadMagic).
Proof.
  assert (Htable :
    (mach_header_verify f = MH_TYPE_MACHO64 <->
     take 4 f = [xcf; xfa; xed; xfe] \/ take 4 f = [xfe; xed; xfa; xcf]) /\
    (mach_header_verify f = MH_TYPE_MACHO32 <->
     take 4 f = [xce; xfa; xed; xfe] \/ take 4 f = [xfe; xed; xfa; xce]) /\
    (mach_header_verify f = MH_TYPE_FAT <->
     take 4 f = [xca; xfe; xba; xbe] \/ take 4 f = [xbe; xba; xfe; xca]) /\
    (mach_header_verify f = MH_TYPE_UNKNOWN <-> take 4 f ∉ recognized_magics)).
  { unfold recognized_magics. rewrite !elem_of_cons, elem_of_nil.
    destruct (decide (4 <= length f)%nat) as [Hlen|Hlen].
    - (* the file holds a magic *)
      rewrite (mach_header_verify_long f Hlen).
      destruct (read_magic_bytes f Hlen) as [_ Hfour].
      destruct (magic_bytes_table (take 4 f) Hfour)
        as (<- & <- & <- & <- & <- & <-).
      destruct (mach_header_type_of_magic_spec (le_value (take 4 f)))
        as (-> & -> & -> & ->).
      tauto.
    - (* the file is shorter than a magic *)
      destruct (mach_header_verify_short f) as [-> Hshort]; [lia|].
      pose proof (Hshort [xcf; xfa; xed; xfe] eq_refl).
      pose proof (Hshort [xfe; xed; xfa; xcf] eq_refl).
      pose proof (Hshort [xce; xfa; xed; xfe] eq_refl).
      pose proof (Hshort [xfe; xed; xfa; xce] eq_refl).
      pose proof (Hshort [xca; xfe; xba; xbe] eq_refl).
      pose proof (Hshort [xbe; xba; xfe; xca] eq_refl).
      repeat split; first [discriminate | tauto]. }
  destruct Htable as (H64 & H32 & Hfat & Hunknown).
  split; [exact H64|]. split; [exact H32|]. split; [exact Hfat|].
  split; [exact Hunknown|]. apply unknown_magic_is_bad_magic.
Qed.

(** C5 on a file that starts with the four bytes of another format. *)
Lemma mach_header_verify_table_witness :
  mach_header_verify bad_magic_file = MH_TYPE_UNKNOWN /\
  mach_header_load bad_magic_file 0 = Err BadMagic /\
  macho_parse no_tables bad_magic_file = Err BadMagic.
Proof.
  destruct (mach_header_verify_table bad_magic_file) as (_ & _ & _ & _ & Hbad).
  assert (mach_header_verify bad_magic_file = MH_TYPE_UNKNOWN) as Hkind
    by (vm_compute; reflexivity).
  destruct Hbad as [Hload Hparse]; [cbn; lia|exact Hkind|].
  split; [exact Hkind|]. split; [exact Hload|apply Hparse].
Defined.

(** ** Constants *)

(** C8.  The constants of the two headers have the values the
    specification lists. *)
Theorem recognized_constants :
  MACH_TYPE_OBJECT = 1 /\ MACH_TYPE_EXECUTE = 2 /\ MACH_TYPE_DYLIB = 6 /\
  MACH_TYPE_KEXT_BUNDLE = 0xB /\
  platforms = [1; 2; 3; 4; 5; 6; 7; 8; 9; 10] /\
  PLATFORM_MACOS = 1 /\ PLATFORM_DRIVERKIT = 10 /\
  TOOL_CLANG = 1 /\ TOOL_SWIFT = 2 /\ TOOL_LD = 3 /\
  CPU_TYPE_ARM64 = Z.lor CPU_TYPE_ARM CPU_ARCH_ABI64 /\
  CPU_TYPE_ARM64 = 0x0100000C.
Proof. repeat split. Qed.

(** ** Version strings *)

Lemma testbit_above (v n i : Z) :
  0 <= v < 2 ^ n -> n <= i -> Z.testbit v i = false.
Proof.
  intros [Hlo Hhi] Hi.
  destruct (decide (v = 0)) as [->|Hne]; [apply Z.bits_0|].
  apply Z.bits_above_log2; [lia|].
  assert (Z.log2 v < n); [|lia].
  apply Z.log2_lt_pow2; lia.
Qed.

Lemma bit_field_masked (v lo width : Z) :
  0 <= lo -> 0 <= width ->
  bit_field v lo width (Z.land (Z.shiftr v lo) (Z.ones width)).
Proof.
  intros Hlo Hwidth i Hi.
  rewrite Z.land_spec, Z.shiftr_spec by lia.
  rewrite Z.testbit_ones by lia.
  replace (i + lo) with (lo + i) by lia.
  destruct (Z.leb_spec 0 i); [|lia]. cbn.
  apply andb_comm.
Qed.

Lemma bit_field_top (v lo width : Z) :
  0 <= lo -> 0 <= v < 2 ^ (lo + width) ->
  bit_field v lo width (Z.shiftr v lo).
Proof.
  intros Hlo Hv i Hi.
  rewrite Z.shiftr_spec by lia.
  replace (i + lo) with (lo + i) by lia.
  destruct (Z.ltb_spec i width); [done|].
  cbn. apply (testbit_above v (lo + width)); [done|lia].
Qed.

(** C6.  The shared version decoder renders a 32-bit version [v] as
    ["X.Y.Z"] with [X] the bits 31:16 of [v], [Y] the bits 15:8 and [Z] the
    bits 7:0, and a 64-bit source version as ["A.B.C.D.E"] whose fields
    are 24, 10, 10, 10 and 10 bits wide, most significant first. *)
Theorem version_strings :
  (forall vers, 0 <= vers < 2 ^ 32 ->
     exists X Y Z',
       mach_lc_load_dylib_format_version vers =
         pretty X +:+ "." +:+ pretty Y +:+ "." +:+ pretty Z' /\
       dylib_vers vers = {| a := X; b := Y; c := Z' |} /\
       bit_field vers 16 16 X /\ bit_field vers 8 8 Y /\ bit_field vers 0 8 Z') /\
  (forall svc, 0 <= version svc < 2 ^ 64 ->
     exists A B C D E,
       mach_lc_source_version_string svc =
         pretty A +:+ "." +:+ pretty B +:+ "." +:+ pretty C +:+ "." +:+
         pretty D +:+ "." +:+ pretty E /\
       source_version_fields (version svc) = [A; B; C; D; E] /\
       bit_field (version svc) 40 24 A /\ bit_field (version svc) 30 10 B /\
       bit_field (version svc) 20 10 C /\ bit_field (version svc) 10 10 D /\
       bit_field (version svc) 0 10 E).
Proof.
  split.
  - intros vers Hvers.
    exists (Z.shiftr vers 16), (Z.land (Z.shiftr vers 8) 0xff), (Z.land vers 0xff).
    split; [reflexivity|]. split; [reflexivity|].
    split; [by apply bit_field_top|].
    split; [by apply (bit_field_masked vers 8 8)|].
    rewrite <- (Z.shiftr_0_r vers) at 2. by apply (bit_field_masked vers 0 8).
  - intros svc Hv.
    exists (Z.shiftr (version svc) 40), (Z.land (Z.shiftr (version svc) 30) 0x3ff),
      (Z.land (Z.shiftr (version svc) 20) 0x3ff),
      (Z.land (Z.shiftr (version svc) 10) 0x3ff), (Z.land (version svc) 0x3ff).
    split; [reflexivity|]. split; [reflexivity|].
    split; [by apply bit_field_top|].
    split; [by apply (bit_field_masked _ 30 10)|].
    split; [by apply (bit_field_masked _ 20 10)|].
    split; [by apply (bit_field_masked _ 10 10)|].
    rewrite <- (Z.shiftr_0_r (version svc)) at 2. by apply (bit_field_masked _ 0 10).
Qed.

(** C6 on the versions 14.4.0 and 1420.100.12.8.1. *)
Lemma version_strings_witness :
  mach_lc_load_dylib_format_version 0x000E0400 = "14.4.0" /\
  mach_lc_source_version_string sample_source_version = "1420.100.12.8.1".
Proof.
  destruct version_strings as [H32 H64]. split.
  - destruct (H32 0x000E0400) as (X & Y & Z' & -> & Hfields & _); [lia|].
    injection Hfields as <- <- <-. vm_compute. reflexivity.
  - destruct (H64 sample_source_version) as (A & B & C & D & E & -> & Hfields & _);
      [cbn; lia|].
    injection Hfields as <- <- <- <- <-. vm_compute. reflexivity.
Defined.

(* ================================================================== *)
(** * Part VII: further properties of macho.c and of the headers        *)
(* ================================================================== *)

Lemma store_bytes_is_Some (bs : list byte) (m : gmap Z byte) (dest : Z) :
  is_Some (store_bytes m dest bs) <->
  forall i : nat, (i < length bs)%nat -> is_Some (m !! (dest + Z.of_nat i)).
Proof.
  revert m dest. induction bs as [|x bs IH]; intros m dest; cbn [store_bytes length].
  - split; [intros _ i Hi; lia|by eexists].
  - destruct (m !! dest) as [y|] eqn:Hdest.
    + rewrite IH. split.
      * intros Hrest [|i] Hi.
        -- rewrite Z.add_0_r, Hdest. by eexists.
        -- specialize (Hrest i ltac:(lia)).
           rewrite lookup_insert_ne in Hrest by lia.
           by replace (dest + Z.of_nat (S i)) with (dest + 1 + Z.of_nat i) by lia.
      * intros Hall i Hi. rewrite lookup_insert_ne by lia.
        replace (dest + 1 + Z.of_nat i) with (dest + Z.of_nat (S i)) by lia.
        apply Hall. lia.
    + split; [by intros [? ?]|].
      intros Hall. specialize (Hall 0%nat ltac:(lia)).
      rewrite Z.add_0_r, Hdest in Hall. by destruct Hall.
Qed.

Lemma store_bytes_lookup (bs : list byte) (m m' : gmap Z byte) (dest a : Z) :
  store_bytes m dest bs = Some m' ->
  m' !! a =
  if bool_decide (dest <= a < dest + Z.of_nat (length bs))
  then bs !! Z.to_nat (a - dest)
  else m !! a.
Proof.
  revert m dest. induction bs as [|x bs IH]; intros m dest; cbn [store_bytes length].
  - intros [= <-]. rewrite bool_decide_eq_false_2 by lia. done.
  - destruct (m !! dest) as [y|] eqn:Hdest; [|done].
    intros Hstore. rewrite (IH _ _ Hstore).
    destruct (decide (a = dest)) as [->|Hne].
    + rewrite bool_decide_eq_false_2, bool_decide_eq_true_2 by lia.
      rewrite lookup_insert_eq, Z.sub_diag. done.
    + rewrite lookup_insert_ne by done.
      case_bool_decide as Hin.
      * rewrite bool_decide_eq_true_2 by lia.
        replace (Z.to_nat (a - dest)) with (S (Z.to_nat (a - (dest + 1)))) by lia.
        done.
      * rewrite bool_decide_eq_false_2 by lia. done.
Qed.

Lemma pointer_repr_length (p : Z) : length (take 4 (pointer_repr p)) = 4%nat.
Proof. reflexivity. Qed.

(** The whole call, by the store of line 27. *)
Lemma macho_read_magic_run (buf offset : Z) (w : world) :
  macho_read_magic buf offset w =
  match store_bytes (memory w) 0 (take 4 (pointer_repr buf)) with
  | Some m' => Exited 0 (World m' (stdout w ++ [magic_error_message]))
  | None => Fault
  end.
Proof.
  unfold macho_read_magic, macho_read_magic_copy, mbind, prog_mbind, prog_bind, memcpy.
  change (take sizeof_uint32_t (pointer_repr buf)) with (take 4 (pointer_repr buf)).
  by destruct (store_bytes _ _ _).
Qed.

Lemma null_word_mapped_store (buf : Z) (w : world) :
  null_word_mapped w <->
  is_Some (store_bytes (memory w) 0 (take 4 (pointer_repr buf))).
Proof.
  rewrite store_bytes_is_Some, pointer_repr_length. unfold null_word_mapped. split.
  - intros Hmapped i Hi. apply Hmapped. lia.
  - intros Hmapped i Hi. specialize (Hmapped (Z.to_nat i) ltac:(lia)).
    by replace (0 + Z.of_nat (Z.to_nat i)) with i in Hmapped by lia.
Qed.

(** The copy of line 27, by its store. *)
Lemma macho_read_magic_copy_run (buf offset : Z) (w : world) :
  macho_read_magic_copy buf offset w =
  match store_bytes (memory w) 0 (take 4 (pointer_repr buf)) with
  | Some m' => Returned 0 (World m' (stdout w))
  | None => Fault
  end.
Proof.
  unfold macho_read_magic_copy, mbind, prog_mbind, prog_bind, memcpy.
  change (take sizeof_uint32_t (pointer_repr buf)) with (take 4 (pointer_repr buf)).
  by destruct (store_bytes _ _ _).
Qed.

(** X1. Every call of macho_read_magic ends the process: it faults in the
    copy of line 27, or it prints the error message once and exits with
    status 0.  It faults whenever one of the addresses 0..3 is not
    mapped, and it reaches the exit only when all four are mapped.  The
    buffer, its contents and the offset play no part. *)
Theorem macho_read_magic_faults_or_exits (buf offset : Z) (w : world) :
  (macho_read_magic buf offset w = Fault \/
   observe (macho_read_magic buf offset w) =
   Obs_exited 0 (stdout w ++ [magic_error_message])) /\
  (~ null_word_mapped w -> macho_read_magic buf offset w = Fault) /\
  (forall status w',
     macho_read_magic buf offset w = Exited status w' -> null_word_mapped w).
Proof.
  pose proof (null_word_mapped_store buf w) as Hmapped.
  rewrite macho_read_magic_run.
  destruct (store_bytes _ _ _) as [m'|] eqn:Hstore; cbn.
  - assert (null_word_mapped w) by (apply Hmapped; by eexists).
    split; [by right|]. split; [done|]. intros status w' _. done.
  - split; [by left|]. split; [done|].
    intros status w' Hrun. discriminate.
Qed.

Lemma macho_read_magic_faults_or_exits_witness :
  macho_read_magic sample_buf 0 hosted_world = Fault /\
  null_word_mapped flat_world.
Proof.
  split.
  - apply (macho_read_magic_faults_or_exits sample_buf 0 hosted_world).
    intros Hmapped. destruct (Hmapped 0 ltac:(lia)) as [x Hx].
    vm_compute in Hx. discriminate.
  - destruct (macho_read_magic sample_buf 0 flat_world) as [|status w'|] eqn:Hrun;
      [vm_compute in Hrun; discriminate| |vm_compute in Hrun; discriminate].
    exact (proj2 (proj2 (macho_read_magic_faults_or_exits sample_buf 0 flat_world))
             status w' Hrun).
Defined.

(** X2. The copy of line 27 writes the four bytes at addresses 0..3 and
    nothing else: when it completes, the local magic still holds 0,
    nothing has been printed, every byte of memory outside addresses 0..3
    is as it was (the buffer included), and no address became mapped or
    unmapped. *)
Theorem macho_read_magic_copy_frame (buf offset : Z) (w : world) (m : Z) (w1 : world) :
  macho_read_magic_copy buf offset w = Returned m w1 ->
  m = 0 /\
  stdout w1 = stdout w /\
  (forall a, ~ 0 <= a < 4 -> memory w1 !! a = memory w !! a) /\
  (forall a, is_Some (memory w1 !! a) <-> is_Some (memory w !! a)).
Proof.
  rewrite macho_read_magic_copy_run.
  destruct (store_bytes _ _ _) as [m'|] eqn:Hstore; [|done].
  intros [= <- <-]. cbn. split; [done|]. split; [done|].
  assert (Hmapped : null_word_mapped w)
    by (apply (null_word_mapped_store buf); rewrite Hstore; by eexists).
  split.
  - intros a Ha. rewrite (store_bytes_lookup _ _ _ _ a Hstore).
    rewrite pointer_repr_length. by rewrite bool_decide_eq_false_2 by lia.
  - intros a. rewrite (store_bytes_lookup _ _ _ _ a Hstore), pointer_repr_length.
    case_bool_decide as Hin; [|done].
    split; intros _; [apply Hmapped; lia|].
    apply lookup_lt_is_Some. rewrite pointer_repr_length. lia.
Qed.

Lemma macho_read_magic_copy_frame_witness :
  exists w1,
    macho_read_magic_copy sample_buf 0 flat_world = Returned 0 w1 /\
    memory w1 !! sample_buf = Some xcf /\ memory w1 !! 4 = None.
Proof.
  destruct (macho_read_magic_copy sample_buf 0 flat_world) as [m w1| |] eqn:Hcopy;
    [|vm_compute in Hcopy; discriminate..].
  destruct (macho_read_magic_copy_frame _ _ _ _ _ Hcopy) as (-> & _ & Hframe & _).
  exists w1. split; [done|].
  rewrite !Hframe by (unfold sample_buf; lia). split; vm_compute; reflexivity.
Defined.

Lemma byte_of_Z_value (n : Z) : Z.of_N (Byte.to_N (byte_of_Z n)) = n mod 256.
Proof.
  unfold byte_of_Z.
  assert (0 <= n mod 256 < 256) as Hrange by (apply Z.mod_pos_bound; lia).
  destruct (Byte.of_N (Z.to_N (n mod 256))) as [x|] eqn:Hbyte.
  - apply Byte.to_of_N in Hbyte. cbn. rewrite Hbyte. lia.
  - apply Byte.of_N_None_iff in Hbyte. lia.
Qed.

Lemma le_value_word_bytes (p : Z) (n s : nat) :
  le_value ((fun i : nat => byte_of_Z (Z.shiftr p (8 * Z.of_nat i))) <$> seq s n) =
  (p / 256 ^ Z.of_nat s) mod 256 ^ Z.of_nat n.
Proof.
  revert s. induction n as [|n IH]; intros s.
  - cbn. by rewrite Z.mod_1_r.
  - cbn [seq fmap list_fmap]. rewrite le_value_cons, IH, byte_of_Z_value.
    rewrite Z.shiftr_div_pow2 by lia.
    replace (2 ^ (8 * Z.of_nat s)) with (256 ^ Z.of_nat s)
      by (change 256 with (2 ^ 8); rewrite <- Z.pow_mul_r by lia; done).
    replace (256 ^ Z.of_nat (S s)) with (256 ^ Z.of_nat s * 256)
      by (rewrite Nat2Z.inj_succ, Z.pow_succ_r by lia; lia).
    replace (256 ^ Z.of_nat (S n)) with (256 * 256 ^ Z.of_nat n)
      by (rewrite Nat2Z.inj_succ, Z.pow_succ_r by lia; lia).
    rewrite <- Z.div_div by lia.
    symmetry. apply Z.rem_mul_r; lia.
Qed.

Lemma pointer_low_word (p : Z) : le_value (take 4 (pointer_repr p)) = p mod 2 ^ 32.
Proof.
  change (take 4 (pointer_repr p))
    with ((fun i : nat => byte_of_Z (Z.shiftr p (8 * Z.of_nat i))) <$> seq 0 4).
  rewrite le_value_word_bytes. cbn. by rewrite Z.div_1_r.
Qed.

(** X3. When a call of macho_read_magic ends in exit, the four bytes at
    addresses 0..3 hold the low four bytes of the pointer buf itself:
    read back as a little-endian word they give buf modulo 2^32, whatever
    the buffer holds. *)
Theorem macho_read_magic_stores_pointer (buf offset : Z) (w : world)
    (status : Z) (w' : world) :
  macho_read_magic buf offset w = Exited status w' ->
  load_bytes (memory w') 0 4 = Some (take 4 (pointer_repr buf)) /\
  magic_at (memory w') 0 0 = Some (buf mod 2 ^ 32).
Proof.
  rewrite macho_read_magic_run.
  destruct (store_bytes _ _ _) as [m'|] eqn:Hstore; [|done].
  intros [= <- <-]. cbn [memory].
  assert (load_bytes m' 0 4 = Some (take 4 (pointer_repr buf))) as Hload.
  { unfold load_bytes. cbn [seq mapM]. cbn [Z.of_nat Z.add].
    rewrite !(store_bytes_lookup _ _ _ _ _ Hstore). reflexivity. }
  split; [exact Hload|].
  unfold magic_at. change (0 + 0) with 0. rewrite Hload. cbn [fmap option_fmap option_map].
  by rewrite pointer_low_word.
Qed.

Lemma macho_read_magic_stores_pointer_witness :
  exists w',
    macho_read_magic sample_buf 0 flat_world = Exited 0 w' /\
    magic_at (memory w') 0 0 = Some 0x1000.
Proof.
  destruct (macho_read_magic sample_buf 0 flat_world) as [|status w'|] eqn:Hrun;
    [vm_compute in Hrun; discriminate| |vm_compute in Hrun; discriminate].
  destruct (macho_read_magic_stores_pointer _ _ _ _ _ Hrun) as [_ Hword].
  exists w'. split; [|exact Hword].
  f_equal. vm_compute in Hrun. congruence.
Defined.

(** X4. What a call of macho_read_magic lets the environment observe
    (exit status and printed lines, or a fault) does not depend on the
    buffer, on the bytes it points to, on the offset, or on any memory
    other than whether addresses 0..3 are mapped: two calls from worlds
    with the same output so far that agree on that are observed alike. *)
Theorem macho_read_magic_ignores_buffer (buf1 offset1 buf2 offset2 : Z) (w1 w2 : world) :
  stdout w1 = stdout w2 ->
  (null_word_mapped w1 <-> null_word_mapped w2) ->
  observe (macho_read_magic buf1 offset1 w1) =
  observe (macho_read_magic buf2 offset2 w2).
Proof.
  intros Hout Hmapped.
  rewrite (null_word_mapped_store buf1 w1), (null_word_mapped_store buf2 w2) in Hmapped.
  rewrite !macho_read_magic_run.
  destruct (store_bytes (memory w1) _ _) as [m1|],
    (store_bytes (memory w2) _ _) as [m2|]; cbn.
  - by rewrite Hout.
  - destruct (proj1 Hmapped) as [? ?]; [by eexists|done].
  - destruct (proj2 Hmapped) as [? ?]; [by eexists|done].
  - done.
Qed.

Lemma macho_read_magic_ignores_buffer_witness :
  observe (macho_read_magic sample_buf 0 flat_world) =
  observe (macho_read_magic 0x2000 7 garbage_world).
Proof.
  apply macho_read_magic_ignores_buffer; [reflexivity|].
  split; intros _ i Hi;
    (assert (i = 0 \/ i = 1 \/ i = 2 \/ i = 3) as [->|[->|[->| ->]]] by lia);
    vm_compute; by eexists.
Defined.

Lemma byte_mask_testbit (k j : Z) :
  0 <= k ->
  Z.testbit (Z.shiftl (Z.ones 8) k) j = (k <=? j) && (j <? k + 8).
Proof.
  intros Hk. destruct (Z.leb_spec k j) as [Hle|Hlt]; cbn.
  - rewrite Z.shiftl_spec, Z.testbit_ones by lia.
    destruct (Z.leb_spec 0 (j - k)), (Z.ltb_spec (j - k) 8), (Z.ltb_spec j (k + 8));
      cbn; try done; lia.
  - destruct (decide (j < 0)) as [Hneg|Hpos].
    + by apply Z.testbit_neg_r.
    + apply Z.shiftl_spec_low. lia.
Qed.

Lemma OSSwapInt32_testbit (x i : Z) :
  0 <= i ->
  Z.testbit (OSSwapInt32 x) i =
  if i <? 8 then Z.testbit x (i + 24)
  else if i <? 16 then Z.testbit x (i + 8)
  else if i <? 24 then Z.testbit x (i - 8)
  else if i <? 32 then Z.testbit x (i - 24)
  else false.
Proof.
  intros Hi. unfold OSSwapInt32, _OSSwapInt32.
  change 0xff000000 with (Z.shiftl (Z.ones 8) 24).
  change 0x00ff0000 with (Z.shiftl (Z.ones 8) 16).
  change 0x0000ff00 with (Z.shiftl (Z.ones 8) 8).
  change 0x000000ff with (Z.shiftl (Z.ones 8) 0).
  rewrite !Z.lor_spec, !Z.shiftr_spec, !Z.shiftl_spec, !Z.land_spec,
    !byte_mask_testbit by lia.
  split_comparisons; try done.
  all: rewrite ?(Z.testbit_neg_r x) by lia; done.
Qed.

Lemma bits_below_pow2 (y n : Z) :
  0 <= y -> 0 <= n -> (forall i, n <= i -> Z.testbit y i = false) -> y < 2 ^ n.
Proof.
  intros Hy Hn Hbits. destruct (decide (y < 2 ^ n)) as [|Hge]; [done|].
  assert (0 < y) as Hpos by (pose proof (Z.pow_pos_nonneg 2 n); lia).
  assert (n <= Z.log2 y) as Hlog by (apply Z.log2_le_pow2; lia).
  pose proof (Z.bit_log2 y Hpos) as Htop. rewrite Hbits in Htop by done. done.
Qed.

Lemma OSSwapInt32_range (x : Z) : 0 <= OSSwapInt32 x < 2 ^ 32.
Proof.
  split.
  - unfold OSSwapInt32, _OSSwapInt32.
    repeat first [apply Z.lor_nonneg; split | apply Z.shiftr_nonneg
                 | apply Z.shiftl_nonneg | apply Z.land_nonneg; right; lia].
  - apply bits_below_pow2; [|lia|].
    + unfold OSSwapInt32, _OSSwapInt32.
      repeat first [apply Z.lor_nonneg; split | apply Z.shiftr_nonneg
                   | apply Z.shiftl_nonneg | apply Z.land_nonneg; right; lia].
    + intros i Hi. rewrite OSSwapInt32_testbit by lia. split_comparisons; done.
Qed.

Lemma OSSwapInt32_twice (x : Z) : OSSwapInt32 (OSSwapInt32 x) = x mod 2 ^ 32.
Proof.
  apply Z.bits_inj'. intros i Hi.
  rewrite OSSwapInt32_testbit by lia.
  destruct (Z.ltb_spec i 32) as [Hlow|Hhigh].
  - rewrite Z.mod_pow2_bits_low by lia.
    split_comparisons; rewrite OSSwapInt32_testbit by lia;
      split_comparisons; f_equal; lia.
  - rewrite Z.mod_pow2_bits_high by lia. split_comparisons; done.
Qed.

Lemma byte_of_Z_ext (n m : Z) : n mod 256 = m mod 256 -> byte_of_Z n = byte_of_Z m.
Proof. unfold byte_of_Z. by intros ->. Qed.

Lemma OSSwapInt32_byte (x k : Z) :
  0 <= k < 4 ->
  Z.shiftr (OSSwapInt32 x) (8 * k) mod 256 = Z.shiftr x (8 * (3 - k)) mod 256.
Proof.
  intros Hk. change 256 with (2 ^ 8). rewrite <- !Z.land_ones by lia.
  apply Z.bits_inj'. intros i Hi.
  rewrite !Z.land_spec, !Z.shiftr_spec, Z.testbit_ones by lia.
  destruct (Z.ltb_spec i 8) as [Hlow|Hhigh]; [|by rewrite !andb_false_r].
  rewrite !andb_true_r || idtac.
  rewrite OSSwapInt32_testbit by lia.
  assert (k = 0 \/ k = 1 \/ k = 2 \/ k = 3) as [->|[->|[->| ->]]] by lia;
    split_comparisons; f_equal; lia.
Qed.

(** X5. OSSwapInt32 reverses the four bytes of its argument: the
    little-endian bytes of the result are those of the argument in reverse
    order; the result is a 32-bit value for every argument; swapping twice
    gives the argument modulo 2^32, hence the argument itself when it is a
    32-bit value. *)
Theorem OSSwapInt32_reverses_bytes :
  (forall x, le32 (OSSwapInt32 x) = reverse (le32 x)) /\
  (forall x, 0 <= OSSwapInt32 x < 2 ^ 32) /\
  (forall x, OSSwapInt32 (OSSwapInt32 x) = x mod 2 ^ 32) /\
  (forall x, 0 <= x < 2 ^ 32 -> OSSwapInt32 (OSSwapInt32 x) = x).
Proof.
  split.
  { intros x.
    assert (forall k : nat, (k < 4)%nat ->
              byte_of_Z (Z.shiftr (OSSwapInt32 x) (8 * Z.of_nat k)) =
              byte_of_Z (Z.shiftr x (8 * Z.of_nat (3 - k)))) as Hbyte.
    { intros k Hk. apply byte_of_Z_ext.
      rewrite (OSSwapInt32_byte x (Z.of_nat k)) by lia.
      do 3 f_equal. lia. }
    unfold le32. cbn [seq fmap list_fmap].
    rewrite (Hbyte 0%nat), (Hbyte 1%nat), (Hbyte 2%nat), (Hbyte 3%nat) by lia.
    reflexivity. }
  split; [exact OSSwapInt32_range|].
  split; [exact OSSwapInt32_twice|].
  intros x Hx. rewrite OSSwapInt32_twice. apply Z.mod_small. done.
Qed.

Lemma OSSwapInt32_reverses_bytes_witness :
  le32 (OSSwapInt32 0x11223344) = [x11; x22; x33; x44] /\
  OSSwapInt32 (OSSwapInt32 0x11223344) = 0x11223344.
Proof.
  destruct OSSwapInt32_reverses_bytes as (Hbytes & _ & _ & Htwice).
  split; [rewrite Hbytes; vm_compute; reflexivity|apply Htwice; lia].
Defined.

(** X6. Each CIGAM constant of macho-header.h is OSSwapInt32 of the MAGIC
    constant it is listed under (64-bit, 32-bit, universal), and the six
    magic numbers are pairwise different, so a magic is never mistaken for
    the swapped form of another. *)
Theorem cigam_is_swapped_magic :
  OSSwapInt32 MACH_MAGIC_64 = MACH_CIGAM_64 /\
  OSSwapInt32 MACH_MAGIC_32 = MACH_CIGAM_32 /\
  OSSwapInt32 MACH_MAGIC_UNIVERSAL = MACH_CIGAM_UNIVERSAL /\
  NoDup [MACH_MAGIC_64; MACH_CIGAM_64; MACH_MAGIC_32; MACH_CIGAM_32;
         MACH_MAGIC_UNIVERSAL; MACH_CIGAM_UNIVERSAL].
Proof.
  repeat split; try (vm_compute; reflexivity).
  repeat (apply NoDup_cons; split;
          [rewrite ?elem_of_cons, elem_of_nil; vm_compute; intuition congruence|]).
  apply NoDup_nil_2.
Qed.

Lemma CPU_ARCH_MASK_testbit (i : Z) :
  Z.testbit CPU_ARCH_MASK i = bool_decide (24 <= i < 32).
Proof.
  change CPU_ARCH_MASK with (Z.shiftl (Z.ones 8) 24).
  destruct (decide (0 <= i)) as [Hi|Hi].
  - rewrite Z.shiftl_spec by lia.
    case_bool_decide as Hr.
    + apply Z.ones_spec_low; lia.
    + destruct (decide (i < 24)).
      * apply Z.testbit_neg_r; lia.
      * apply Z.ones_spec_high; lia.
  - rewrite Z.testbit_neg_r by lia.
    symmetry; apply bool_decide_eq_false; lia.
Qed.

Lemma cpu_type_split (base cap : Z) :
  0 <= base < 2 ^ 24 ->
  Z.land cap CPU_ARCH_MASK = cap ->
  cpu_capability (Z.lor base cap) = cap /\ cpu_family (Z.lor base cap) = base.
Proof.
  intros Hbase Hcap.
  assert (Hcapbit : forall i, 0 <= i -> Z.testbit cap i = Z.testbit cap i && bool_decide (24 <= i < 32)).
  { intros i Hi. rewrite <- CPU_ARCH_MASK_testbit, <- Z.land_spec, Hcap. reflexivity. }
  unfold cpu_capability, cpu_family; split; apply Z.bits_inj'; intros i Hi.
  - rewrite Z.land_spec, Z.lor_spec, CPU_ARCH_MASK_testbit.
    rewrite (Hcapbit i Hi).
    case_bool_decide as Hr.
    + rewrite (testbit_above base 24 i) by lia.
      destruct (Z.testbit cap i); reflexivity.
    + destruct (Z.testbit base i), (Z.testbit cap i); reflexivity.
  - rewrite Z.land_spec, Z.lor_spec, Z.lnot_spec, CPU_ARCH_MASK_testbit by lia.
    rewrite (Hcapbit i Hi).
    case_bool_decide as Hr.
    + rewrite (testbit_above base 24 i) by lia.
      destruct (Z.testbit cap i); reflexivity.
    + destruct (Z.testbit base i), (Z.testbit cap i); reflexivity.
Qed.

(** X7. A CPU type built as a family below 2^24 or-ed with capability
    bits inside CPU_ARCH_MASK splits back into both parts: masking with
    CPU_ARCH_MASK gives the capability, masking with its complement the
    family. So CPU_TYPE_ARM64 and CPU_TYPE_ARM64_32 are of family
    CPU_TYPE_ARM with capability ABI64 and ABI64_32. CPU_TYPE_X86_64 has
    capability ABI64 and family 7, which is not CPU_TYPE_X86 (6): it is
    not CPU_TYPE_X86 | CPU_ARCH_ABI64. CPU_TYPE_ANY, CPU_TYPE_X86 and
    CPU_TYPE_ARM carry no capability bits. *)
Theorem cpu_type_capability_bits :
  (forall base cap : Z,
      0 <= base < 2 ^ 24 ->
      Z.land cap CPU_ARCH_MASK = cap ->
      cpu_capability (Z.lor base cap) = cap /\ cpu_family (Z.lor base cap) = base)
  /\ (cpu_capability CPU_TYPE_ARM64 = CPU_ARCH_ABI64
      /\ cpu_family CPU_TYPE_ARM64 = CPU_TYPE_ARM)
  /\ (cpu_capability CPU_TYPE_ARM64_32 = CPU_ARCH_ABI64_32
      /\ cpu_family CPU_TYPE_ARM64_32 = CPU_TYPE_ARM)
  /\ (cpu_capability CPU_TYPE_X86_64 = CPU_ARCH_ABI64
      /\ cpu_family CPU_TYPE_X86_64 = 7
      /\ CPU_TYPE_X86_64 <> Z.lor CPU_TYPE_X86 CPU_ARCH_ABI64)
  /\ Forall (fun t => cpu_capability t = 0 /\ cpu_family t = t)
            [CPU_TYPE_ANY; CPU_TYPE_X86; CPU_TYPE_ARM].
Proof.
  split; [exact cpu_type_split|].
  split; [apply cpu_type_split; [done | reflexivity]|].
  split; [apply cpu_type_split; [done | reflexivity]|].
  split.
  - change CPU_TYPE_X86_64 with (Z.lor 7 CPU_ARCH_ABI64).
    split; [|split].
    + apply cpu_type_split; [done | reflexivity].
    + apply cpu_type_split; [done | reflexivity].
    + discriminate.
  - repeat constructor.
Qed.

Lemma cpu_type_capability_bits_witness :
  cpu_capability (Z.lor 12 0x01000000) = 0x01000000
  /\ cpu_family (Z.lor 12 0x01000000) = 12.
Proof.
  destruct cpu_type_capability_bits as [Hsplit _].
  apply (Hsplit 12 0x01000000); [lia | reflexivity].
Defined.

Lemma align_up_multiple (k a : Z) : 0 < a -> align_up (k * a) a = k * a.
Proof.
  intros Ha. unfold align_up.
  replace (k * a + a - 1) with (a - 1 + k * a) by lia.
  rewrite Z.div_add by lia.
  rewrite (Z.div_small (a - 1) a) by lia.
  reflexivity.
Qed.

Lemma word_fields_offsets (fields : list c_field) (k : nat) :
  Forall (fun f => is_word f.2) fields ->
  (field_offsets_from (4 * Z.of_nat k) fields).*2
    = (fun i => 4 * Z.of_nat i) <$> seq k (length fields)
  /\ fields_end (4 * Z.of_nat k) fields = 4 * Z.of_nat (k + length fields).
Proof.
  intros Hall. revert k.
  induction Hall as [|[name t] rest [Hsize Halign] _ IH]; intros k.
  - cbn. split; [reflexivity | f_equal; lia].
  - cbn [field_offsets_from fields_end length seq fmap list_fmap snd].
    cbn in Hsize, Halign. rewrite Hsize, Halign.
    assert (Hup : align_up (4 * Z.of_nat k) 4 = 4 * Z.of_nat k).
    { rewrite (Z.mul_comm 4). apply align_up_multiple. lia. }
    rewrite !Hup.
    replace (4 * Z.of_nat k + 4) with (4 * Z.of_nat (S k)) by lia.
    destruct (IH (S k)) as [IHo IHe].
    split.
    + cbn. rewrite <- IHo. f_equal; lia.
    + rewrite IHe. f_equal; lia.
Qed.

Lemma word_fields_align (fields : list c_field) :
  Forall (fun f => is_word f.2) fields ->
  fields_align fields = 1 \/ fields_align fields = 4.
Proof.
  induction 1 as [|[name t] rest [_ Halign] _ IH]; [left; reflexivity|].
  right.
  change (fields_align ((name, t) :: rest)) with (Z.max (alignof t) (fields_align rest)).
  cbn in Halign. rewrite Halign.
  destruct IH as [-> | ->]; reflexivity.
Qed.

Lemma word_struct_packed (fields : list c_field) :
  Forall (fun f => is_word f.2) fields -> packed_words fields.
Proof.
  intros Hall.
  destruct (word_fields_offsets fields 0 Hall) as [Ho He].
  split; [exact Ho|].
  unfold c_struct; cbn [sizeof].
  change 0 with (4 * Z.of_nat 0) at 1. rewrite He. cbn [Nat.add].
  destruct (word_fields_align fields Hall) as [-> | ->].
  - replace (4 * Z.of_nat (length fields)) with (4 * Z.of_nat (length fields) * 1) at 1 by lia.
    rewrite align_up_multiple; lia.
  - replace (4 * Z.of_nat (length fields)) with (Z.of_nat (length fields) * 4) at 1 by lia.
    rewrite align_up_multiple; lia.
Qed.

(** X8. In both data models every load-command structure of
    macho-command.h starts as mach_load_command_t does: its first two
    fields are the uint32_t cmd at offset 0 and the uint32_t cmdsize at
    offset 4, it is at least MACH_LOAD_COMMAND_SIZE bytes long, and its
    size is a multiple of 4. *)
Theorem load_commands_share_prefix (dm : data_model) :
  Forall command_prefix (load_command_structs dm).
Proof.
  destruct dm;
    repeat (apply Forall_cons; split;
            [ split; [reflexivity|];
              split; [reflexivity|];
              split; [vm_compute; discriminate | reflexivity] |]);
    apply Forall_nil_2.
Qed.

(** X9. A structure whose fields are all four-byte words aligned on
    four has no padding: field i is at byte 4 * i and the size is four
    times the number of fields. This holds for mach_header_64,
    mach_header, fat_header_t, fat_arch, mach_load_command_t, the
    build-version command and tool records, the dyld-info command and the
    linkedit-data command. MACH_HEADER_SIZE is the size of the 32-bit
    header, 28, four bytes short of mach_header_64, whose size is 32;
    sizeof(mach_load_command_t) is 8. *)
Theorem word_structs_are_packed :
  (forall fields : list c_field,
      Forall (fun f => is_word f.2) fields -> packed_words fields)
  /\ Forall packed_words
       [ struct_mach_header_64; struct_mach_header; struct_fat_header_t;
         struct_fat_arch; struct_mach_load_command_t;
         struct_mach_build_version_command_t; struct_build_tool_version;
         struct_mach_dyld_info_command_t; struct_mach_linkedit_data_command_t ]
  /\ MACH_HEADER_SIZE = 28
  /\ sizeof (c_struct struct_mach_header_64) = MACH_HEADER_SIZE + 4
  /\ sizeof (c_struct struct_mach_header_64) = MACH_HEADER_64_SIZE
  /\ sizeof (c_struct struct_mach_load_command_t) = MACH_LOAD_COMMAND_SIZE.
Proof.
  split; [exact word_struct_packed|].
  split.
  - repeat (apply Forall_cons; split; [apply word_struct_packed; repeat constructor|]).
    apply Forall_nil_2.
  - repeat split.
Qed.

Lemma word_structs_are_packed_witness :
  packed_words struct_fat_arch.
Proof.
  destruct word_structs_are_packed as [Hpacked _].
  apply (Hpacked struct_fat_arch).
  repeat constructor.
Defined.

(** X10. The fields compiled under #ifndef __LP64__ change the layout:
    where __LP64__ is not defined the dylinker, load-dylinker and rpath
    commands have 16 bytes instead of 12, the dylib command 28 instead of
    24, and timestamp lies at offset 8 of struct dylib instead of 4;
    MACH_COMMAND_INFO_SIZE is 16 with 8-byte pointers and 12 with 4-byte
    pointers. *)
Theorem pointer_fields_change_layout (dm : data_model) :
  sizeof (c_struct (struct_mach_dylinker_command_t dm)) = 12 + lp64_growth dm
  /\ sizeof (c_struct (struct_mach_load_dylinker_command_t dm)) = 12 + lp64_growth dm
  /\ sizeof (c_struct (struct_mach_rpath_command_t dm)) = 12 + lp64_growth dm
  /\ sizeof (c_struct (struct_mach_dylib_command_t dm)) = 24 + lp64_growth dm
  /\ offsetof (struct_dylib dm) "timestamp" = Some (4 + lp64_growth dm)
  /\ MACH_COMMAND_INFO_SIZE dm = 16 - lp64_growth dm.
Proof.
  destruct dm; repeat split.
Qed.
